(** * circlify: circle packing (A1.0 heuristic) and smallest enclosing circle

    A shallow embedding of [circlify.py].  The Python code computes on
    binary64 floats; the functions below are written once over an
    arithmetic interface [Num] and run at two instances:

    - [float_Num]: Rocq's primitive binary64 floats, the arithmetic the
      program really executes (used for every concrete evaluation);
    - [R_Num]: the real numbers, the arithmetic the geometry is meant in.
      It serves only to read a result in exact arithmetic ([Exact]);
      every property of the program is proved for any [Num], or for
      [float_Num], and none at [R_Num] alone.

    Python exceptions are results of type [res]: [Raise e] for an
    exception, [OutOfFuel] when the fuel of the one unbounded loop
    ([enclose]) runs out.  Dictionaries are association lists in
    insertion order, which is the order Python iterates them in.

    What the model leaves out or fixes:
    - logging and the plotting helper [bubbles];
    - [random.shuffle]: the order it produces is a parameter of [enclose]
      and [circlify];
    - [a ** 2.0] is the correctly rounded square at binary64 (the C
      library's [pow] may be one unit in the last place off);
    - circles are compared by value; CPython also takes a tuple to be
      equal to itself when it holds a NaN;
    - [sorted] is a stable insertion sort, which is what any stable sort
      returns when [<] orders the weights (no NaN among them). *)

From Stdlib Require Import List Bool Arith Lia String Permutation Sorted.
From Stdlib Require Import ZArith Floats Reals Lra.
Import ListNotations.

Set Implicit Arguments.

(** ** Exceptions and results *)

Inductive exn : Type :=
| ValueError          (* math.sqrt of a negative number *)
| ZeroDivisionError   (* float division by zero *)
| OverflowError       (* x ** 2.0 out of range *)
| TypeError           (* unpacking None *)
| IndexError
| RuntimeError.       (* extendBasis found no basis *)

Inductive res (A : Type) : Type :=
| Ret (a : A)
| Raise (e : exn)
| OutOfFuel.

Arguments Ret {A} a.
Arguments Raise {A} e.
Arguments OutOfFuel {A}.

Definition bind {A B : Type} (m : res A) (k : A -> res B) : res B :=
  match m with
  | Ret a => k a
  | Raise e => Raise e
  | OutOfFuel => OutOfFuel
  end.

Declare Scope res_scope.
Delimit Scope res_scope with res.
Notation "x <- m ;; k" := (bind m (fun x => k))
  (at level 61, m at next level, right associativity) : res_scope.
Notation "' p <- m ;; k" := (bind m (fun p => k))
  (at level 61, p pattern, m at next level, right associativity) : res_scope.
Open Scope res_scope.

(** ** The arithmetic interface *)

Class Num (F : Type) : Type := {
  zero : F;
  one : F;
  two : F;
  four : F;
  tol : F;            (* the literal 1e-6 *)
  margin : F;         (* 10.0 * sys.float_info.epsilon *)
  fadd : F -> F -> F;
  fsub : F -> F -> F;
  fmul : F -> F -> F;
  fdiv : F -> F -> F;
  fopp : F -> F;
  fabs : F -> F;
  fsqrt : F -> F;
  fsquare : F -> F;   (* a ** 2.0, when in range *)
  fltb : F -> F -> bool;
  feqb : F -> F -> bool;
  finite : F -> bool
}.

Declare Scope num_scope.
Delimit Scope num_scope with num.
Infix "+" := fadd : num_scope.
Infix "-" := fsub : num_scope.
Infix "*" := fmul : num_scope.
Infix "/" := fdiv : num_scope.
Notation "- x" := (fopp x) : num_scope.
Infix "<?" := fltb : num_scope.
Infix "=?" := feqb : num_scope.

(** binary64, as CPython computes.  [a ** 2.0] is the [pow] of the C
    library, which is taken here as the correctly rounded square; it may
    differ from it in the last bit. *)
#[export] Instance float_Num : Num float := {|
  zero := 0%float;
  one := 1%float;
  two := 2%float;
  four := 4%float;
  tol := 0x1.0c6f7a0b5ed8dp-20%float;
  margin := (10 * 0x1p-52)%float;
  fadd := PrimFloat.add;
  fsub := PrimFloat.sub;
  fmul := PrimFloat.mul;
  fdiv := PrimFloat.div;
  fopp := PrimFloat.opp;
  fabs := PrimFloat.abs;
  fsqrt := PrimFloat.sqrt;
  fsquare := fun a => PrimFloat.mul a a;
  fltb := PrimFloat.ltb;
  feqb := PrimFloat.eqb;
  finite := PrimFloat.is_finite
|}.

Definition Rltb (a b : R) : bool := if Rlt_dec a b then true else false.
Definition Reqb (a b : R) : bool := if Req_dec_T a b then true else false.

(** Exact arithmetic. *)
#[export] Instance R_Num : Num R := {|
  zero := 0%R;
  one := 1%R;
  two := 2%R;
  four := 4%R;
  tol := (1 / 1000000)%R;
  margin := (10 / 4503599627370496)%R;
  fadd := Rplus;
  fsub := Rminus;
  fmul := Rmult;
  fdiv := Rdiv;
  fopp := Ropp;
  fabs := Rabs;
  fsqrt := sqrt;
  fsquare := fun a => (a * a)%R;
  fltb := Rltb;
  feqb := Reqb;
  finite := fun _ => true
|}.

(** ** Circles and dictionaries *)

Record Circle (F : Type) : Type := mkCircle { x : F; y : F; r : F }.
Arguments mkCircle {F} _ _ _.
Arguments x {F} _.
Arguments y {F} _.
Arguments r {F} _.

Definition label := string.

(** A [dict] lists its items in insertion order; keys are unique. *)
Definition dict (V : Type) : Type := list (label * V).

Definition keys {V} (d : dict V) : list label := map fst d.
Definition values {V} (d : dict V) : list V := map snd d.

(** [d[k] = v]: replace in place when [k] is present, else append. *)
Fixpoint dict_set {V} (d : dict V) (k : label) (v : V) : dict V :=
  match d with
  | [] => [(k, v)]
  | (k', v') :: d' =>
      if String.eqb k' k then (k, v) :: d' else (k', v') :: dict_set d' k v
  end.

Fixpoint dict_get {V} (d : dict V) (k : label) : option V :=
  match d with
  | [] => None
  | (k', v') :: d' => if String.eqb k' k then Some v' else dict_get d' k
  end.

Section Circlify.

Context {F : Type} {N : Num F}.
Local Open Scope num_scope.

(** *** Python's raising operations *)

(** [math.sqrt]: ValueError on a negative argument. *)
Definition py_sqrt (a : F) : res F :=
  if a <? zero then Raise ValueError else Ret (fsqrt a).

(** [a / b] on floats: ZeroDivisionError when [b == 0]. *)
Definition py_div (a b : F) : res F :=
  if b =? zero then Raise ZeroDivisionError else Ret (a / b).

(** [a ** 2.0]: OverflowError when a finite [a] squares out of range. *)
Definition py_pow2 (a : F) : res F :=
  if finite a && negb (finite (fsquare a)) then Raise OverflowError
  else Ret (fsquare a).

(** Value equality of the named tuples. *)
Definition circle_eqb (a b : Circle F) : bool :=
  (x a =? x b) && (y a =? y b) && (r a =? r b).

(** *** Geometry primitives *)

Definition distance (circle1 circle2 : Circle F) : res F :=
  let '(mkCircle x1 y1 r1) := circle1 in
  let '(mkCircle x2 y2 r2) := circle2 in
  let dx := x2 - x1 in
  let dy := y2 - y1 in
  s <- py_sqrt (dx * dx + dy * dy) ;;
  Ret (s - r1 - r2).

Definition get_intersection (circle1 circle2 : Circle F)
  : res (option (F * F) * option (F * F)) :=
  let '(mkCircle x1 y1 r1) := circle1 in
  let '(mkCircle x2 y2 r2) := circle2 in
  let dx := x2 - x1 in
  let dy := y2 - y1 in
  d <- py_sqrt (dx * dx + dy * dy) ;;
  if r1 + r2 <? d then Ret (None, None)
  else if d <? fabs (r1 - r2) then Ret (None, None)
  else if (d =? zero) && (r1 =? r2) then Ret (None, None)
  else
    a <- py_div (r1 * r1 - r2 * r2 + d * d) (two * d) ;;
    h <- py_sqrt (r1 * r1 - a * a) ;;
    adx <- py_div (a * dx) d ;;
    let xm := x1 + adx in
    ady <- py_div (a * dy) d ;;
    let ym := y1 + ady in
    hdy <- py_div (h * dy) d ;;
    let xs1 := xm + hdy in
    hdy' <- py_div (h * dy) d ;;
    let xs2 := xm - hdy' in
    hdx <- py_div (h * dx) d ;;
    let ys1 := ym - hdx in
    hdx' <- py_div (h * dx) d ;;
    let ys2 := ym + hdx' in
    if (xs1 =? xs2) && (ys1 =? ys2) then Ret (Some (xs1, ys1), None)
    else Ret (Some (xs1, ys1), Some (xs2, ys2)).

Definition get_placement_candidates (radius : F) (c1 c2 : Circle F)
  : res (option (Circle F) * option (Circle F)) :=
  let ic1 := mkCircle (x c1) (y c1) (r c1 + (radius + margin)) in
  let ic2 := mkCircle (x c2) (y c2) (r c2 + (radius + margin)) in
  '(i1, i2) <- get_intersection ic1 ic2 ;;
  match i1 with
  | None => Ret (None, None)
  | Some (i1x, i1y) =>
      let candidate1 := mkCircle i1x i1y radius in
      match i2 with
      | None => Ret (Some candidate1, None)
      | Some (i2x, i2y) =>
          Ret (Some candidate1, Some (mkCircle i2x i2y radius))
      end
  end.

(** [lsq] after the loop of [get_hole_degree] over [placed_circles]. *)
Fixpoint hole_degree_loop (candidate : Circle F) (placed_circles : list (Circle F))
    (pc1 pc2 : option (Circle F)) (lsq : F) : res F :=
  match placed_circles with
  | [] => Ret lsq
  | pc :: rest =>
      if match pc1 with Some c => circle_eqb c pc | None => false end
      then hole_degree_loop candidate rest pc1 pc2 lsq
      else if match pc2 with Some c => circle_eqb c pc | None => false end
      then hole_degree_loop candidate rest pc1 pc2 lsq
      else
        sy <- py_pow2 (y candidate - y pc) ;;
        sx <- py_pow2 (x candidate - x pc) ;;
        d <- py_sqrt (sy + sx) ;;
        hole_degree_loop candidate rest pc1 pc2 (lsq + d)
  end.

Definition get_hole_degree (candidate : Circle F)
    (placed_circles : list (Circle F)) (pc1 pc2 : option (Circle F)) : res F :=
  lsq <- hole_degree_loop candidate placed_circles pc1 pc2 zero ;;
  s <- py_sqrt lsq ;;
  Ret (- s).

(** *** The greedy packer *)

(** [itertools.combinations(l, 2)]. *)
Fixpoint combinations2 {A} (l : list A) : list (A * A) :=
  match l with
  | [] => []
  | a :: t => map (pair a) t ++ combinations2 t
  end.

(** [sorted(data, key=data.get, reverse=True)], each label with its
    weight [data[label]]: a stable sort, larger weights first.  The
    comparison used is [<] alone, as in CPython. *)
Fixpoint insert_desc (it : label * F) (l : list (label * F)) : list (label * F) :=
  match l with
  | [] => [it]
  | h :: t => if snd it <? snd h then h :: insert_desc it t else it :: l
  end.

Fixpoint sorted_desc (data : dict F) : list (label * F) :=
  match data with
  | [] => []
  | it :: rest => insert_desc it (sorted_desc rest)
  end.

(** Lines 193-197: does [cand] overlap a placed circle? *)
Fixpoint overlaps (placed : list (Circle F)) (cand : Circle F) : res bool :=
  match placed with
  | [] => Ret false
  | pc :: rest =>
      d <- distance pc cand ;;
      if d <? zero then Ret true else overlaps rest cand
  end.

(** The scoring function is a parameter of the selection loop;
    [pack_A1_0] runs it with [get_hole_degree]. *)
Definition scorer : Type :=
  Circle F -> list (Circle F) -> option (Circle F) -> option (Circle F) -> res F.

(** [(mhd, lead_candidate)]. *)
Definition lead : Type := (option F * option (Circle F))%type.

(** Lines 200-203, for a candidate that survived the overlap test. *)
Definition update_lead (score : scorer) (placed : list (Circle F))
    (st : lead) (cand c1 c2 : Circle F) : res lead :=
  hd <- score cand placed (Some c1) (Some c2) ;;
  match fst st with
  | None => Ret (Some hd, Some cand)
  | Some mhd => if mhd <? hd then Ret (Some hd, Some cand) else Ret st
  end.

(** Lines 191-203, for one entry of the pair of candidates. *)
Definition consider (score : scorer) (placed : list (Circle F))
    (c1 c2 : Circle F) (st : lead) (cand : option (Circle F)) : res lead :=
  match cand with
  | None => Ret st
  | Some cand =>
      overlap <- overlaps placed cand ;;
      if overlap then Ret st else update_lead score placed st cand c1 c2
  end.

(** Lines 189-203. *)
Fixpoint select_loop (score : scorer) (placed : list (Circle F)) (radius : F)
    (pairs : list (Circle F * Circle F)) (st : lead) : res lead :=
  match pairs with
  | [] => Ret st
  | (c1, c2) :: rest =>
      '(cand1, cand2) <- get_placement_candidates radius c1 c2 ;;
      st1 <- consider score placed c1 c2 st cand1 ;;
      st2 <- consider score placed c1 c2 st1 cand2 ;;
      select_loop score placed radius rest st2
  end.

Definition select_candidate (score : scorer) (placed_circles : dict (Circle F))
    (radius : F) : res (option (Circle F)) :=
  let vs := values placed_circles in
  st <- select_loop score vs radius (combinations2 vs) (None, None) ;;
  Ret (snd st).

(** The loop of [pack_A1_0] over the sorted labels; [break] returns the
    circles placed so far. *)
Fixpoint pack_loop (score : scorer) (placed_circles : dict (Circle F))
    (items : list (label * F)) : res (dict (Circle F)) :=
  match items with
  | [] => Ret placed_circles
  | (lbl, w) :: rest =>
      radius <- py_sqrt w ;;
      let n_circles := List.length placed_circles in
      if (n_circles <=? 1)%nat then
        let x0 := if (n_circles =? 0)%nat then radius else - radius in
        pack_loop score (dict_set placed_circles lbl (mkCircle x0 zero radius)) rest
      else
        lead_candidate <- select_candidate score placed_circles radius ;;
        match lead_candidate with
        | None => Ret placed_circles
        | Some c => pack_loop score (dict_set placed_circles lbl c) rest
        end
  end.

Definition pack_with (score : scorer) (data : dict F) : res (dict (Circle F)) :=
  pack_loop score [] (sorted_desc data).

Definition pack_A1_0 (data : dict F) : res (dict (Circle F)) :=
  pack_with get_hole_degree data.

(** *** The enclosing-circle solver *)

Definition enclosesNot (a b : Circle F) : bool :=
  let dr := r a - r b in
  let dx := x b - x a in
  let dy := y b - y a in
  (dr <? zero) || (dr * dr <? dx * dx + dy * dy).

Definition enclosesWeak (a b : Circle F) : bool :=
  let dr := r a - r b + tol in
  let dx := x b - x a in
  let dy := y b - y a in
  (zero <? dr) && (dx * dx + dy * dy <? dr * dr).

Definition enclosesWeakAll (a : Circle F) (B : list (Circle F)) : bool :=
  forallb (enclosesWeak a) B.

Definition encloseBasis2 (a b : Circle F) : res (Circle F) :=
  let '(mkCircle x1 y1 r1) := a in
  let '(mkCircle x2 y2 r2) := b in
  let x21 := x2 - x1 in
  let y21 := y2 - y1 in
  let r21 := r2 - r1 in
  l <- py_sqrt (x21 * x21 + y21 * y21) ;;
  qx <- py_div x21 l ;;
  qy <- py_div y21 l ;;
  Ret (mkCircle ((x1 + x2 + qx * r21) / two)
                ((y1 + y2 + qy * r21) / two)
                ((l + r1 + r2) / two)).

Definition encloseBasis3 (a b c : Circle F) : res (Circle F) :=
  let '(mkCircle x1 y1 r1) := a in
  let '(mkCircle x2 y2 r2) := b in
  let '(mkCircle x3 y3 r3) := c in
  let a2 := x1 - x2 in
  let a3 := x1 - x3 in
  let b2 := y1 - y2 in
  let b3 := y1 - y3 in
  let c2 := r2 - r1 in
  let c3 := r3 - r1 in
  let d1 := x1 * x1 + y1 * y1 - r1 * r1 in
  let d2 := d1 - x2 * x2 - y2 * y2 + r2 * r2 in
  let d3 := d1 - x3 * x3 - y3 * y3 + r3 * r3 in
  let ab := a3 * b2 - a2 * b3 in
  qxa <- py_div (b2 * d3 - b3 * d2) (ab * two) ;;
  let xa := qxa - x1 in
  xb <- py_div (b3 * c2 - b2 * c3) ab ;;
  qya <- py_div (a3 * d2 - a2 * d3) (ab * two) ;;
  let ya := qya - y1 in
  yb <- py_div (a2 * c3 - a3 * c2) ab ;;
  let A := xb * xb + yb * yb - one in
  let B := two * (r1 + xa * xb + ya * yb) in
  let C := xa * xa + ya * ya - r1 * r1 in
  rr <- (if negb (A =? zero) then
           s <- py_sqrt (B * B - four * A * C) ;;
           py_div (- (B + s)) (two * A)
         else py_div (- C) B) ;;
  Ret (mkCircle (x1 + xa + xb * rr) (y1 + ya + yb * rr) rr).

Definition encloseBasis (B : list (Circle F)) : res (Circle F) :=
  match B with
  | [] => Raise IndexError
  | [b0] => Ret b0
  | [b0; b1] => encloseBasis2 b0 b1
  | b0 :: b1 :: b2 :: _ => encloseBasis3 b0 b1 b2
  end.

(** The first loop of [extendBasis]: a basis [[B[i], p]]. *)
Fixpoint extendBasis_pair (B rest : list (Circle F)) (p : Circle F)
  : res (option (list (Circle F))) :=
  match rest with
  | [] => Ret None
  | bi :: rest' =>
      if enclosesNot p bi then
        e <- encloseBasis2 bi p ;;
        if enclosesWeakAll e B then Ret (Some [bi; p])
        else extendBasis_pair B rest' p
      else extendBasis_pair B rest' p
  end.

(** The second loop of [extendBasis]: a basis [[B[i], B[j], p]], [i < j]. *)
Fixpoint extendBasis_triple (B : list (Circle F))
    (pairs : list (Circle F * Circle F)) (p : Circle F)
  : res (option (list (Circle F))) :=
  match pairs with
  | [] => Ret None
  | (bi, bj) :: rest =>
      eij <- encloseBasis2 bi bj ;;
      if enclosesNot eij p then
        eip <- encloseBasis2 bi p ;;
        if enclosesNot eip bj then
          ejp <- encloseBasis2 bj p ;;
          if enclosesNot ejp bi then
            e3 <- encloseBasis3 bi bj p ;;
            if enclosesWeakAll e3 B then Ret (Some [bi; bj; p])
            else extendBasis_triple B rest p
          else extendBasis_triple B rest p
        else extendBasis_triple B rest p
      else extendBasis_triple B rest p
  end.

Definition extendBasis (B : list (Circle F)) (p : Circle F)
  : res (list (Circle F)) :=
  if enclosesWeakAll p B then Ret [p]
  else
    two_ <- extendBasis_pair B B p ;;
    match two_ with
    | Some B' => Ret B'
    | None =>
        three_ <- extendBasis_triple B (combinations2 B) p ;;
        match three_ with
        | Some B' => Ret B'
        | None => Raise RuntimeError
        end
    end.

(** The [while i < n] loop of [enclose]; every iteration uses one unit of
    [fuel]. *)
Fixpoint enclose_loop (fuel : nat) (circles : list (Circle F)) (i : nat)
    (B : list (Circle F)) (e : option (Circle F)) : res (option (Circle F)) :=
  if (List.length circles <=? i)%nat then Ret e
  else
    match fuel with
    | O => OutOfFuel
    | S fuel' =>
        match nth_error circles i with
        | None => Raise IndexError
        | Some p =>
            if match e with Some e0 => enclosesWeak e0 p | None => false end
            then enclose_loop fuel' circles (i + 1) B e
            else
              B' <- extendBasis B p ;;
              e' <- encloseBasis B' ;;
              enclose_loop fuel' circles 0 B' (Some e')
        end
    end.

(** [random.shuffle] is the parameter [shuffle]: the order it leaves the
    circles in. *)
Definition enclose (shuffle : list (Circle F) -> list (Circle F)) (fuel : nat)
    (packed_circles : dict (Circle F)) : res (option (Circle F)) :=
  let circles := shuffle (values packed_circles) in
  enclose_loop fuel circles 0 [] None.

(** *** Scaling and the entry point *)

Fixpoint scale_loop (scaled : dict (Circle F)) (circles : dict (Circle F))
    (ex ey er : F) : res (dict (Circle F)) :=
  match circles with
  | [] => Ret scaled
  | (lbl, mkCircle x_c y_c r_c) :: rest =>
      sx <- py_div (x_c - ex) er ;;
      sy <- py_div (y_c - ey) er ;;
      sr <- py_div r_c er ;;
      scale_loop (dict_set scaled lbl (mkCircle sx sy sr)) rest ex ey er
  end.

Definition scale (circles : dict (Circle F)) (ex ey er : F)
  : res (dict (Circle F)) :=
  scale_loop [] circles ex ey er.

Definition circlify (shuffle : list (Circle F) -> list (Circle F)) (fuel : nat)
    (data : dict F) (with_unit : bool) : res (dict (Circle F)) :=
  packed_circles <- pack_A1_0 data ;;
  enclosure <- enclose shuffle fuel packed_circles ;;
  match enclosure with
  | None => Raise TypeError
  | Some (mkCircle ex ey er) =>
      packed_and_scaled_circles <- scale packed_circles ex ey er ;;
      if with_unit
      then Ret (dict_set packed_and_scaled_circles EmptyString
                  (mkCircle zero zero one))
      else Ret packed_and_scaled_circles
  end.

End Circlify.

(** ** The degenerate cases of [get_intersection], in the spec's words *)

Section Degenerate.

Context {F : Type} {N : Num F}.
Local Open Scope num_scope.

(** The distance [d] between the two centres. *)
Definition center_distance (c1 c2 : Circle F) : F :=
  let dx := x c2 - x c1 in
  let dy := y c2 - y c1 in
  fsqrt (dx * dx + dy * dy).

(** Too far apart: [d > r1 + r2]. *)
Definition circles_separate (c1 c2 : Circle F) : bool :=
  r c1 + r c2 <? center_distance c1 c2.

(** One inside the other: [d < |r1 - r2|]. *)
Definition circle_contained (c1 c2 : Circle F) : bool :=
  center_distance c1 c2 <? fabs (r c1 - r c2).

(** Coincident: [d = 0] and equal radii. *)
Definition circles_coincident (c1 c2 : Circle F) : bool :=
  (center_distance c1 c2 =? zero) && (r c1 =? r c2).

End Degenerate.

(** ** The hole degree, in the spec's words *)

Section HoleDegreeSpec.

Context {F : Type} {N : Num F}.
Local Open Scope num_scope.

(** Euclidean distance between the centres of [candidate] and [pc]. *)
Definition center_dist (candidate pc : Circle F) : res F :=
  sy <- py_pow2 (y candidate - y pc) ;;
  sx <- py_pow2 (x candidate - x pc) ;;
  py_sqrt (sy + sx).

(** [pc] is one of the two circles that generated the candidate. *)
Definition is_generator (pc1 pc2 : option (Circle F)) (pc : Circle F) : bool :=
  match pc1 with Some c => circle_eqb c pc | None => false end
  || match pc2 with Some c => circle_eqb c pc | None => false end.

Fixpoint sum_dists (acc : F) (candidate : Circle F) (l : list (Circle F)) : res F :=
  match l with
  | [] => Ret acc
  | pc :: rest =>
      d <- center_dist candidate pc ;;
      sum_dists (acc + d) candidate rest
  end.

(** The sum of the distances from the candidate's centre to the centre of
    every placed circle other than the generating ones. *)
Definition sum_center_distances (candidate : Circle F)
    (placed_circles : list (Circle F)) (pc1 pc2 : option (Circle F)) : res F :=
  sum_dists zero candidate
    (filter (fun pc => negb (is_generator pc1 pc2 pc)) placed_circles).

(** The score the spec describes: the negated plain sum. *)
Definition neg_sum_distances : scorer (F := F) :=
  fun candidate placed_circles pc1 pc2 =>
    s <- sum_center_distances candidate placed_circles pc1 pc2 ;;
    Ret (- s).

(** A surviving candidate with the pair that generated it. *)
Definition survivor : Type := (Circle F * Circle F * Circle F)%type.

(** Lines 200-203 run over the surviving candidates in the order the
    loops meet them. *)
Fixpoint pick_lead (score : scorer) (placed : list (Circle F))
    (cands : list survivor) (st : lead) : res lead :=
  match cands with
  | [] => Ret st
  | (cand, c1, c2) :: rest =>
      st' <- update_lead score placed st cand c1 c2 ;;
      pick_lead score placed rest st'
  end.

Definition survivor_sum (placed : list (Circle F)) (sv : survivor) : res F :=
  let '(cand, c1, c2) := sv in
  sum_center_distances cand placed (Some c1) (Some c2).

(** The two scores order the sums [s] and [t] alike, and [math.sqrt]
    accepts both. *)
Definition same_order (s t : F) : Prop :=
  (s <? zero) = false /\ (t <? zero) = false /\
  (- fsqrt s <? - fsqrt t) = (- s <? - t).

Definition res_map {A B} (f : A -> B) (m : res A) : res B :=
  a <- m ;; Ret (f a).

(** The leads of the two runs correspond: nothing selected yet, or the
    same candidate with its two scores. *)
Inductive lead_rel (placed : list (Circle F)) (all : list survivor)
  : lead -> lead -> Prop :=
| lead_rel_none : lead_rel placed all (None, None) (None, None)
| lead_rel_some (sv : survivor) (s : F) :
    In sv all ->
    survivor_sum placed sv = Ret s ->
    lead_rel placed all (Some (- fsqrt s), Some (fst (fst sv)))
                        (Some (- s), Some (fst (fst sv))).

End HoleDegreeSpec.

(** ** The processing order, in the spec's words *)

Section OrderSpec.

Context {F : Type} {N : Num F}.
Local Open Scope num_scope.

(** [<] orders the weights [ws] as a total preorder does: it is
    asymmetric and its negation is transitive.  This is the case for
    floats none of which is NaN. *)
Definition weights_ordered (ws : list F) : Prop :=
  (forall a b, In a ws -> In b ws -> (a <? b) = true -> (b <? a) = false) /\
  (forall a b c, In a ws -> In b ws -> In c ws ->
     (a <? b) = false -> (b <? c) = false -> (a <? c) = false).

(** The item weighs as much as [w]: neither is less than the other. *)
Definition same_weight (w : F) (it : label * F) : bool :=
  negb (w <? snd it) && negb (snd it <? w).

(** No item comes before a heavier one. *)
Definition descending (items : list (label * F)) : Prop :=
  StronglySorted (fun a b => (snd a <? snd b) = false) items.

End OrderSpec.

(** ** Invariants of the packer *)

Section PackerSpec.

Context {F : Type} {N : Num F}.
Local Open Scope num_scope.

(** The lead candidate has the radius asked for and overlaps none of the
    placed circles. *)
Definition good_lead (placed : list (Circle F)) (radius : F) (st : lead) : Prop :=
  forall c, snd st = Some c -> r c = radius /\ overlaps placed c = Ret false.

(** The signed gap from [pc] to [c] is computed and is not negative. *)
Definition clear_of (c pc : Circle F) : Prop :=
  exists d, distance pc c = Ret d /\ (d <? zero) = false.

(** The circle placed first or second ([n] circles placed before it). *)
Definition seed_circle (n : nat) (radius : F) : Circle F :=
  mkCircle (if (n =? 0)%nat then radius else - radius) zero radius.

(** What holds of any two circles [pi], [pj] placed [i]-th and [j]-th,
    [i < j]: the first two are the seeds, tangent at the origin; any later
    circle keeps a non-negative signed gap to every earlier one. *)
Definition apart (i j : nat) (pi pj : Circle F) : Prop :=
  (j = 1%nat -> exists r0 r1,
      pi = mkCircle r0 zero r0 /\ pj = mkCircle (- r1) zero r1) /\
  (2 <= j -> clear_of pj pi)%nat.

Definition no_overlap (placed : dict (Circle F)) : Prop :=
  forall i j pi pj, (i < j)%nat ->
    nth_error (values placed) i = Some pi ->
    nth_error (values placed) j = Some pj ->
    apart i j pi pj.

End PackerSpec.

(** ** The enclosure, in the spec's words *)

Section EncloseSpec.

Context {F : Type} {N : Num F}.
Local Open Scope num_scope.

(** The first [i] circles of the scan lie weakly inside the current
    enclosing circle [e]. *)
Definition scanned (circles : list (Circle F)) (i : nat)
    (e : option (Circle F)) : Prop :=
  forall k p, (k < i)%nat -> nth_error circles k = Some p ->
    exists e0, e = Some e0 /\ enclosesWeak e0 p = true.

(** [e] weakly encloses every circle of the mapping. *)
Definition encloses_all (e : Circle F) (packed_circles : dict (Circle F)) : Prop :=
  forall l c, In (l, c) packed_circles -> enclosesWeak e c = true.

End EncloseSpec.

(** ** Normalization, in the spec's words *)

Section ScaleSpec.

Context {F : Type} {N : Num F}.
Local Open Scope num_scope.

(** [(x, y, r)] seen from the enclosing circle [e]:
    [((x - ex) / er, (y - ey) / er, r / er)]. *)
Definition normalized (e c : Circle F) : Circle F :=
  mkCircle ((x c - x e) / r e) ((y c - y e) / r e) (r c / r e).

Definition normalized_all (e : Circle F) (circles : dict (Circle F))
  : dict (Circle F) :=
  map (fun it => (fst it, normalized e (snd it))) circles.

(** The circle [(0, 0, 1)]. *)
Definition unit_circle : Circle F := mkCircle zero zero one.

End ScaleSpec.

(** ** Sample inputs *)

(** Three labels of weight 1. *)
Definition three_ones : dict float :=
  [("a"%string, 1%float); ("b"%string, 1%float); ("c"%string, 1%float)].

(** One very large circle and two of weight 1. *)
Definition one_huge : dict float :=
  [("a"%string, 0x1p120%float); ("b"%string, 1%float); ("c"%string, 1%float)].

(** The empty string and a label, both of weight 1. *)
Definition empty_label : dict float :=
  [(EmptyString, 1%float); ("a"%string, 1%float)].

(** A label of weight zero next to one of weight 1. *)
Definition zero_weight : dict float :=
  [("a"%string, 1%float); ("b"%string, 0%float)].

(** One label of negative weight. *)
Definition negative_weight : dict float := [("a"%string, (-1)%float)].

(** One label of weight zero. *)
Definition zero_alone : dict float := [("a"%string, 0%float)].

(** A weight of zero after two that are not. *)
Definition zero_third : dict float :=
  [("a"%string, 1000%float); ("b"%string, 1%float); ("c"%string, 0%float)].

(** Three weights whose two largest have square roots 30.41... and
    30.04... *)
Definition tight_seeds : dict float :=
  [("a"%string, 925%float); ("b"%string, 903%float); ("c"%string, 812%float)].

(** ** The selection loop as a generator and a reduction *)

Section Survivors.

Context {F : Type} {N : Num F}.

(** The candidate of one slot, when there is one and it overlaps nothing. *)
Definition survivors_of (placed : list (Circle F)) (c1 c2 : Circle F)
    (cand : option (Circle F)) : res (list survivor) :=
  match cand with
  | None => Ret []
  | Some c =>
      overlap <- overlaps placed c ;;
      Ret (if overlap then [] else [(c, c1, c2)])
  end.

(** The surviving candidates of all pairs, in the order of the loops. *)
Fixpoint survivors (placed : list (Circle F)) (radius : F)
    (pairs : list (Circle F * Circle F)) : res (list survivor) :=
  match pairs with
  | [] => Ret []
  | (c1, c2) :: rest =>
      '(cand1, cand2) <- get_placement_candidates radius c1 c2 ;;
      s1 <- survivors_of placed c1 c2 cand1 ;;
      s2 <- survivors_of placed c1 c2 cand2 ;;
      tl <- survivors placed radius rest ;;
      Ret (s1 ++ s2 ++ tl)
  end.

End Survivors.

(** ** Spec-level views of binary64 values *)

Definition sf_nonneg (s : spec_float) : bool :=
  match s with
  | S754_nan => true
  | S754_zero b | S754_infinity b | S754_finite b _ _ => negb b
  end.

Definition sf_is_nan (s : spec_float) : bool :=
  match s with S754_nan => true | _ => false end.

(** A key whose lexicographic order is the order of the values. *)
Definition sf_key (s : spec_float) : Z * Z * Z :=
  match s with
  | S754_nan | S754_zero _ => (0, 0, 0)%Z
  | S754_infinity true => (-2, 0, 0)%Z
  | S754_infinity false => (2, 0, 0)%Z
  | S754_finite true m e => (-1, - e, - Zpos m)%Z
  | S754_finite false m e => (1, e, Zpos m)%Z
  end.

Definition key_lt (a b : Z * Z * Z) : Prop :=
  let '(a1, a2, a3) := a in
  let '(b1, b2, b3) := b in
  (a1 < b1 \/ (a1 = b1 /\ (a2 < b2 \/ (a2 = b2 /\ a3 < b3))))%Z.

(** ** Further notions for the properties of the code *)

Section MoreSpec.

Context {F : Type} {N : Num F}.
Local Open Scope num_scope.

(** The signed gap of two circles as [distance] computes it. *)
Definition signed_gap (c1 c2 : Circle F) : F :=
  center_distance c1 c2 - r c1 - r c2.

(** What the packer keeps of two circles [pi], [pj] placed [i]-th and
    [j]-th, [i < j]: the first two are the seeds, put at [(r0, 0)] and
    [(-r1, 0)] without any test; a circle placed later has a signed gap
    to every circle placed before it that is not negative. *)
Definition kept_apart (i j : nat) (pi pj : Circle F) : Prop :=
  (j = 1%nat -> exists r0 r1,
      pi = mkCircle r0 zero r0 /\ pj = mkCircle (- r1) zero r1) /\
  ((2 <= j)%nat -> (signed_gap pi pj <? zero) = false).

Definition gaps_kept (placed : dict (Circle F)) : Prop :=
  forall i j pi pj, (i < j)%nat ->
    nth_error (values placed) i = Some pi ->
    nth_error (values placed) j = Some pj ->
    kept_apart i j pi pj.

(** The spec's reading of "no overlap": the signed gap of every pair is
    at least [- margin]. *)
Definition within_margin (placed : dict (Circle F)) : Prop :=
  forall i j pi pj, (i < j)%nat ->
    nth_error (values placed) i = Some pi ->
    nth_error (values placed) j = Some pj ->
    (signed_gap pi pj <? - margin) = false.

(** The entry [p] of the mapping is the circle of the item [it] of the
    processing order: it has its label, and the square root of its
    weight as radius. *)
Definition placed_for (p : label * Circle F) (it : label * F) : Prop :=
  fst p = fst it /\ r (snd p) = fsqrt (snd it).

(** The mapping holds, in insertion order, one circle for each of the
    first items of [order], item by item; it holds one for every item,
    or the next item is one for which two circles or more were placed
    and the search found no candidate. *)
Definition processed_in_order (score : scorer) (order : list (label * F))
    (placed : dict (Circle F)) : Prop :=
  Forall2 placed_for placed (firstn (List.length placed) order) /\
  (List.length placed = List.length order \/
   (2 <= List.length placed)%nat /\
   exists l w, nth_error order (List.length placed) = Some (l, w) /\
               select_candidate score placed (fsqrt w) = Ret None).

(** [c] grown by the radius of the circle to place and the margin. *)
Definition inflated (radius : F) (c : Circle F) : Circle F :=
  mkCircle (x c) (y c) (r c + (radius + margin)).

(** The score of a surviving candidate. *)
Definition survivor_score (score : scorer) (placed : list (Circle F))
    (sv : survivor) : res F :=
  let '(cand, c1, c2) := sv in score cand placed (Some c1) (Some c2).

(** A basis as [extendBasis] builds them: one to three circles, the last
    of which is [p], the others taken from [B]. *)
Definition basis_of (B : list (Circle F)) (p : Circle F)
    (B' : list (Circle F)) : Prop :=
  B' = [p] \/
  (exists bi, In bi B /\ B' = [bi; p]) \/
  (exists bi bj, In bi B /\ In bj B /\ B' = [bi; bj; p]).

(** The state of the solver: nothing yet, or a basis of one to three of
    the circles together with the circle it determines. *)
Definition solver_state (circles B : list (Circle F))
    (e : option (Circle F)) : Prop :=
  (B = [] /\ e = None) \/
  (exists e0, e = Some e0 /\ encloseBasis B = Ret e0 /\
     incl B circles /\ (1 <= List.length B <= 3)%nat).

(** The lead after the survivors [seen]: nothing when there were none,
    else one of them with its score, which no score seen exceeds. *)
Definition best_of (score : scorer) (placed : list (Circle F))
    (seen : list survivor) (st : lead) : Prop :=
  match st with
  | (None, None) => seen = []
  | (Some m, Some c) =>
      (exists sv, In sv seen /\ fst (fst sv) = c /\
                  survivor_score score placed sv = Ret m) /\
      (forall sv h, In sv seen -> survivor_score score placed sv = Ret h ->
                    (m <? h) = false)
  | _ => False
  end.

(** [<] orders the scores of the survivors (see [weights_ordered]). *)
Definition scores_ordered (score : scorer) (placed : list (Circle F))
    (svs : list survivor) : Prop :=
  exists hs,
    Forall2 (fun sv h => survivor_score score placed sv = Ret h) svs hs /\
    weights_ordered hs.

(** [c] is a placement candidate of a pair of placed circles, and the
    overlap test answers [b] for it. *)
Definition candidate_with_overlap (placed : list (Circle F)) (radius : F)
    (c : Circle F) (b : bool) : Prop :=
  exists c1 c2 k1 k2,
    In (c1, c2) (combinations2 placed) /\
    get_placement_candidates radius c1 c2 = Ret (k1, k2) /\
    (k1 = Some c \/ k2 = Some c) /\
    overlaps placed c = Ret b.

(** [pj], placed [j]-th, is a placement candidate of two circles placed
    before it. *)
Definition candidate_of_earlier (placed : dict (Circle F)) (j : nat)
    (pj : Circle F) : Prop :=
  exists i1 i2 p1 p2 k1 k2,
    (i1 < i2 < j)%nat /\
    nth_error (values placed) i1 = Some p1 /\
    nth_error (values placed) i2 = Some p2 /\
    get_placement_candidates (r pj) p1 p2 = Ret (k1, k2) /\
    (k1 = Some pj \/ k2 = Some pj).

End MoreSpec.

(** What [pack_A1_0] returns for [three_ones]. *)
Definition three_ones_packed : dict (Circle float) :=
  [("a"%string, mkCircle 1%float 0%float 1%float);
   ("b"%string, mkCircle (-1)%float 0%float 1%float);
   ("c"%string, mkCircle 0%float 0x1.bb67ae8584cb6p0%float 1%float)].

(** ** What a call may raise *)

(** The exceptions of the arithmetic: [math.sqrt], division and [**]. *)
Definition arith_error (e : exn) : Prop :=
  e = ValueError \/ e = ZeroDivisionError \/ e = OverflowError.

(** The exceptions of [math.sqrt] and division. *)
Definition sqrt_or_div_error (e : exn) : Prop :=
  e = ValueError \/ e = ZeroDivisionError.

(** [m] is a value, or an exception that [P] allows. *)
Definition raises_only {A} (P : exn -> Prop) (m : res A) : Prop :=
  match m with
  | Ret _ => True
  | Raise e => P e
  | OutOfFuel => False
  end.

(** ** Laws of the arithmetic *)

(** What the proofs need of the arithmetic: a sum of two squares is never
    negative, so [math.sqrt] accepts it. *)
Class NumLaws (F : Type) {N : Num F} : Prop := {
  sum_sq_not_neg : forall a b : F, fltb (fadd (fmul a a) (fmul b b)) zero = false
}.
Arguments NumLaws F {N}.

(** * Proofs *)

Lemma bind_Ret_inv {A B} (m : res A) (k : A -> res B) (b : B) :
  bind m k = Ret b -> exists a, m = Ret a /\ k a = Ret b.
Proof. destruct m; simpl; intros E; try discriminate. eauto. Qed.

Lemma Ret_inj {A} (a b : A) : Ret a = Ret b -> a = b.
Proof. intros E. now inversion E. Qed.

Ltac bind_inv H :=
  let a := fresh "a" in
  let Ha := fresh "E" a in
  apply bind_Ret_inv in H; destruct H as (a & Ha & H).

(** ** binary64 satisfies the laws *)

Module FloatFacts.

Lemma round_aux_sign (m : Z) (e : Z) (l : location) :
  sf_nonneg (binary_round_aux prec emax false m e l) = true.
Proof.
  unfold binary_round_aux.
  destruct (shr_fexp prec emax m e l) as [mrs' e'].
  destruct (shr_fexp prec emax _ e' loc_Exact) as [mrs'' e''].
  destruct (shr_m mrs''); try reflexivity.
  destruct (Z.leb e'' _); reflexivity.
Qed.

Lemma round_sign (m : positive) (e : Z) :
  sf_nonneg (binary_round prec emax false m e) = true.
Proof.
  unfold binary_round.
  destruct (shl_align m e _) as [mz ez]. apply round_aux_sign.
Qed.

Lemma SFmul_self_nonneg (a : spec_float) : sf_nonneg (SF64mul a a) = true.
Proof.
  destruct a as [[]|[]| |s m e]; simpl; try reflexivity.
  replace (xorb s s) with false by (destruct s; reflexivity).
  apply round_aux_sign.
Qed.

Lemma SFadd_nonneg (a b : spec_float) :
  sf_nonneg a = true -> sf_nonneg b = true -> sf_nonneg (SF64add a b) = true.
Proof.
  destruct a as [[]|[]| |[] m e], b as [[]|[]| |[] m' e']; simpl;
    intros; try discriminate; try reflexivity.
  apply round_sign.
Qed.

Lemma SFltb_nonneg_zero (a : spec_float) :
  sf_nonneg a = true -> SFltb a (S754_zero false) = false.
Proof.
  destruct a as [[]|[]| |[] m e]; intros H; try discriminate H; reflexivity.
Qed.

Lemma float_sum_sq_not_neg (a b : float) :
  PrimFloat.ltb (PrimFloat.add (PrimFloat.mul a a) (PrimFloat.mul b b)) 0%float = false.
Proof.
  rewrite ltb_spec, add_spec, !mul_spec.
  change (Prim2SF 0%float) with (S754_zero false).
  apply SFltb_nonneg_zero, SFadd_nonneg; apply SFmul_self_nonneg.
Qed.

(** *** The order of the values that are not NaN *)

Lemma SFltb_key (a b : spec_float) :
  sf_is_nan a = false -> sf_is_nan b = false ->
  (SFltb a b = true <-> key_lt (sf_key a) (sf_key b)).
Proof.
  unfold SFltb.
  destruct a as [[]|[]| |[] m e], b as [[]|[]| |[] m' e']; simpl;
    intros Ha Hb; try discriminate; try (split; [discriminate|lia]);
    try (split; [lia|reflexivity]).
  - change (Pos.compare_cont Eq m m') with (Pos.compare m m').
    destruct (Z.compare_spec e e') as [He|He|He],
             (Pos.compare_spec m m') as [Hm|Hm|Hm]; simpl;
      split; intros Hlt; try discriminate; try reflexivity; lia.
  - change (Pos.compare_cont Eq m m') with (Pos.compare m m').
    destruct (Z.compare_spec e e') as [He|He|He],
             (Pos.compare_spec m m') as [Hm|Hm|Hm]; simpl;
      split; intros Hlt; try discriminate; try reflexivity; lia.
Qed.

Lemma is_nan_spec (a : float) :
  PrimFloat.is_nan a = false -> sf_is_nan (Prim2SF a) = false.
Proof.
  unfold PrimFloat.is_nan. rewrite eqb_spec.
  destruct (Prim2SF a); simpl; try reflexivity. discriminate.
Qed.

Lemma ltb_key (a b : float) :
  PrimFloat.is_nan a = false -> PrimFloat.is_nan b = false ->
  (PrimFloat.ltb a b = true <-> key_lt (sf_key (Prim2SF a)) (sf_key (Prim2SF b))).
Proof.
  intros Ha Hb. rewrite ltb_spec. apply SFltb_key; now apply is_nan_spec.
Qed.

Lemma key_lt_asym (a b : Z * Z * Z) : key_lt a b -> ~ key_lt b a.
Proof. destruct a as [[a1 a2] a3], b as [[b1 b2] b3]. simpl. lia. Qed.

Lemma key_lt_neg_trans (a b c : Z * Z * Z) :
  ~ key_lt a b -> ~ key_lt b c -> ~ key_lt a c.
Proof.
  destruct a as [[a1 a2] a3], b as [[b1 b2] b3], c as [[c1 c2] c3]. simpl. lia.
Qed.

End FloatFacts.

#[export] Instance float_NumLaws : NumLaws float.
Proof. constructor. exact FloatFacts.float_sum_sq_not_neg. Qed.

#[export] Instance R_NumLaws : NumLaws R.
Proof.
  constructor. intros a b. simpl. unfold Rltb.
  destruct (Rlt_dec (a * a + b * b) 0) as [H|H]; [|reflexivity].
  exfalso. nra.
Qed.

(** ** Two-circle intersection *)

Section Intersection.

Context {F : Type} {N : Num F} {L : NumLaws F}.
Local Open Scope num_scope.

Lemma py_sqrt_sum_sq (a b : F) :
  py_sqrt (a * a + b * b) = Ret (fsqrt (a * a + b * b)).
Proof. unfold py_sqrt. now rewrite sum_sq_not_neg. Qed.

(** Past the three tests [get_intersection] returns at least one point,
    or raises. *)
Lemma intersection_solution_not_none (x1 y1 r1 r2 d dx dy : F)
    (o : option (F * F) * option (F * F)) :
  (a <- py_div (r1 * r1 - r2 * r2 + d * d) (two * d) ;;
   h <- py_sqrt (r1 * r1 - a * a) ;;
   adx <- py_div (a * dx) d ;;
   let xm := x1 + adx in
   ady <- py_div (a * dy) d ;;
   let ym := y1 + ady in
   hdy <- py_div (h * dy) d ;;
   let xs1 := xm + hdy in
   hdy' <- py_div (h * dy) d ;;
   let xs2 := xm - hdy' in
   hdx <- py_div (h * dx) d ;;
   let ys1 := ym - hdx in
   hdx' <- py_div (h * dx) d ;;
   let ys2 := ym + hdx' in
   if (xs1 =? xs2) && (ys1 =? ys2) then Ret (Some (xs1, ys1), None)
   else Ret (Some (xs1, ys1), Some (xs2, ys2))) = Ret o ->
  fst o <> None.
Proof.
  intros H. repeat bind_inv H. cbv zeta in H.
  destruct (_ && _) in H; injection H as <-; discriminate.
Qed.

(** C5: [get_intersection] returns [(None, None)] exactly when the circles
    are separate, one contains the other, or they coincide; as the right
    side gives a returned value, none of the three cases raises. *)
Theorem get_intersection_no_solution_iff (c1 c2 : Circle F) :
  get_intersection c1 c2 = Ret (None, None) <->
  circles_separate c1 c2 = true \/
  circle_contained c1 c2 = true \/
  circles_coincident c1 c2 = true.
Proof.
  destruct c1 as [x1 y1 r1], c2 as [x2 y2 r2].
  unfold circles_separate, circle_contained, circles_coincident,
    center_distance, get_intersection; simpl.
  rewrite py_sqrt_sum_sq; simpl.
  set (d := fsqrt _).
  destruct (r1 + r2 <? d) eqn:Esep; [split; auto|].
  destruct (d <? fabs (r1 - r2)) eqn:Econt; [split; auto|].
  destruct ((d =? zero) && (r1 =? r2)) eqn:Ecoin; [split; auto|].
  split.
  - intros H. apply intersection_solution_not_none in H.
    exfalso. apply H. reflexivity.
  - intros [H|[H|H]]; discriminate.
Qed.

End Intersection.

Example get_intersection_coincident :
  get_intersection (mkCircle 0%float 0%float 1%float)
                   (mkCircle 0%float 0%float 1%float) = Ret (None, None).
Proof. vm_compute. reflexivity. Qed.

Example get_intersection_contained :
  get_intersection (mkCircle 0%float 0%float 3%float)
                   (mkCircle 1%float 0%float 1%float) = Ret (None, None).
Proof. vm_compute. reflexivity. Qed.

Example get_intersection_tangent :
  get_intersection (mkCircle 0%float 0%float 1%float)
                   (mkCircle 2%float 0%float 1%float)
  = Ret (Some (1%float, 0%float), None).
Proof. vm_compute. reflexivity. Qed.

Example get_intersection_two_points :
  get_intersection (mkCircle 0%float 0%float 5%float)
                   (mkCircle 6%float 0%float 5%float)
  = Ret (Some (3%float, (-4)%float), Some (3%float, 4%float)).
Proof. vm_compute. reflexivity. Qed.

(** Two unit circles five apart have no intersection. *)
Lemma get_intersection_no_solution_iff_witness :
  get_intersection (mkCircle 0%float 0%float 1%float)
                   (mkCircle 5%float 0%float 1%float) = Ret (None, None).
Proof.
  apply (get_intersection_no_solution_iff (L := float_NumLaws)).
  left. vm_compute. reflexivity.
Defined.

(** ** The hole degree *)

Section HoleDegree.

Context {F : Type} {N : Num F}.
Local Open Scope num_scope.

Lemma hole_degree_loop_sum (candidate : Circle F) (pc1 pc2 : option (Circle F))
    (placed : list (Circle F)) (lsq : F) :
  hole_degree_loop candidate placed pc1 pc2 lsq =
  sum_dists lsq candidate
    (filter (fun pc => negb (is_generator pc1 pc2 pc)) placed).
Proof.
  revert lsq. induction placed as [|pc rest IH]; intros lsq; simpl; [reflexivity|].
  unfold is_generator at 1.
  destruct (match pc1 with Some c => circle_eqb c pc | None => false end); simpl.
  - apply IH.
  - destruct (match pc2 with Some c => circle_eqb c pc | None => false end); simpl.
    + apply IH.
    + unfold center_dist.
      destruct (py_pow2 (y candidate - y pc)) as [sy| |]; simpl; try reflexivity.
      destruct (py_pow2 (x candidate - x pc)) as [sx| |]; simpl; try reflexivity.
      destruct (py_sqrt (sy + sx)) as [d| |]; simpl; try reflexivity.
      apply IH.
Qed.

Lemma get_hole_degree_sqrt_sum (candidate : Circle F) (placed : list (Circle F))
    (pc1 pc2 : option (Circle F)) :
  get_hole_degree candidate placed pc1 pc2 =
  (s <- sum_center_distances candidate placed pc1 pc2 ;;
   q <- py_sqrt s ;;
   Ret (- q)).
Proof.
  unfold get_hole_degree, sum_center_distances.
  now rewrite hole_degree_loop_sum.
Qed.

(** C3, as the code has it: [get_hole_degree] is the negated square root
    of the sum of the centre distances to the placed circles that are not
    equal to a generating circle; it raises exactly when that computation
    does. *)
Theorem get_hole_degree_is_neg_sqrt_of_sum (candidate : Circle F)
    (placed : list (Circle F)) (pc1 pc2 : option (Circle F)) :
  get_hole_degree candidate placed pc1 pc2 =
  (s <- sum_center_distances candidate placed pc1 pc2 ;;
   q <- py_sqrt s ;;
   Ret (- q)).
Proof.
  unfold get_hole_degree, sum_center_distances.
  rewrite hole_degree_loop_sum. reflexivity.
Qed.

(** *** Scoring with the square root against scoring with the sum *)

Lemma update_lead_hole_degree (placed : list (Circle F)) (st : lead)
    (cand c1 c2 : Circle F) (s : F) :
  survivor_sum placed (cand, c1, c2) = Ret s ->
  (s <? zero) = false ->
  update_lead get_hole_degree placed st cand c1 c2 =
  match fst st with
  | None => Ret (Some (- fsqrt s), Some cand)
  | Some mhd =>
      if mhd <? - fsqrt s then Ret (Some (- fsqrt s), Some cand) else Ret st
  end.
Proof.
  intros Hs Hpos. unfold update_lead. rewrite get_hole_degree_sqrt_sum.
  simpl in Hs. rewrite Hs. simpl. unfold py_sqrt. rewrite Hpos. reflexivity.
Qed.

Lemma update_lead_neg_sum (placed : list (Circle F)) (st : lead)
    (cand c1 c2 : Circle F) (s : F) :
  survivor_sum placed (cand, c1, c2) = Ret s ->
  update_lead neg_sum_distances placed st cand c1 c2 =
  match fst st with
  | None => Ret (Some (- s), Some cand)
  | Some mhd => if mhd <? - s then Ret (Some (- s), Some cand) else Ret st
  end.
Proof.
  intros Hs. unfold update_lead, neg_sum_distances.
  simpl in Hs. rewrite Hs. reflexivity.
Qed.

Lemma pick_lead_related (placed : list (Circle F)) (all : list survivor) :
  (forall sv sv' s s', In sv all -> In sv' all ->
     survivor_sum placed sv = Ret s -> survivor_sum placed sv' = Ret s' ->
     same_order s s') ->
  forall cands st1 st2,
    incl cands all ->
    lead_rel placed all st1 st2 ->
    res_map snd (pick_lead get_hole_degree placed cands st1) =
    res_map snd (pick_lead neg_sum_distances placed cands st2).
Proof.
  intros Hord. induction cands as [|[[cand c1] c2] rest IH]; intros st1 st2 Hincl Hrel.
  - simpl. destruct Hrel; reflexivity.
  - assert (Hin : In (cand, c1, c2) all) by (apply Hincl; now left).
    assert (Hrest : incl rest all) by (intros z Hz; apply Hincl; now right).
    simpl.
    destruct (survivor_sum placed (cand, c1, c2)) as [s|e|] eqn:Hs.
    + destruct (Hord _ _ _ _ Hin Hin Hs Hs) as (Hpos & _ & _).
      rewrite (@update_lead_hole_degree placed st1 cand c1 c2 s Hs Hpos).
      rewrite (@update_lead_neg_sum placed st2 cand c1 c2 s Hs).
      destruct Hrel as [|sv0 s0 Hin0 Hs0]; simpl.
      * apply IH; [assumption|].
        apply (lead_rel_some placed all (cand, c1, c2) Hin Hs).
      * destruct (Hord _ _ _ _ Hin0 Hin Hs0 Hs) as (_ & _ & Hcmp).
        rewrite Hcmp.
        destruct (- s0 <? - s); simpl.
        -- apply IH; [assumption|].
           apply (lead_rel_some placed all (cand, c1, c2) Hin Hs).
        -- apply IH; [assumption|]. now apply lead_rel_some.
    + unfold update_lead, neg_sum_distances. rewrite get_hole_degree_sqrt_sum.
      simpl in Hs. rewrite Hs. reflexivity.
    + unfold update_lead, neg_sum_distances. rewrite get_hole_degree_sqrt_sum.
      simpl in Hs. rewrite Hs. reflexivity.
Qed.

(** C10, with its premise made explicit: when the two scores order the
    sums of the surviving candidates alike, the selection loop ends on the
    same candidate with either score (and raises alike). *)
Theorem pick_lead_sqrt_same_as_sum (placed : list (Circle F))
    (cands : list survivor) :
  (forall sv sv' s s', In sv cands -> In sv' cands ->
     survivor_sum placed sv = Ret s -> survivor_sum placed sv' = Ret s' ->
     same_order s s') ->
  res_map snd (pick_lead get_hole_degree placed cands (None, None)) =
  res_map snd (pick_lead neg_sum_distances placed cands (None, None)).
Proof.
  intros Hord. apply (@pick_lead_related placed cands Hord).
  - apply incl_refl.
  - constructor.
Qed.

(** *** The selection loop of [pack_A1_0] is that reduction *)

Lemma pick_lead_app (score : scorer) (placed : list (Circle F))
    (l1 l2 : list survivor) :
  forall st,
    pick_lead score placed (l1 ++ l2) st =
    (st' <- pick_lead score placed l1 st ;; pick_lead score placed l2 st').
Proof.
  induction l1 as [|[[c c1] c2] rest IH]; intros st; simpl; [reflexivity|].
  destruct (update_lead score placed st c c1 c2); simpl; auto.
Qed.

Lemma consider_pick_lead (score : scorer) (placed : list (Circle F))
    (c1 c2 : Circle F) (cand : option (Circle F)) (sv : list survivor) (st : lead) :
  survivors_of placed c1 c2 cand = Ret sv ->
  consider score placed c1 c2 st cand = pick_lead score placed sv st.
Proof.
  destruct cand as [c|]; simpl; intros H.
  - bind_inv H. rewrite Ea. simpl. apply Ret_inj in H. subst sv.
    destruct a; simpl; [reflexivity|].
    destruct (update_lead score placed st c c1 c2); reflexivity.
  - apply Ret_inj in H. now subst.
Qed.

Lemma select_loop_pick_lead (score : scorer) (placed : list (Circle F))
    (radius : F) (pairs : list (Circle F * Circle F)) :
  forall svs st,
    survivors placed radius pairs = Ret svs ->
    select_loop score placed radius pairs st = pick_lead score placed svs st.
Proof.
  induction pairs as [|[c1 c2] rest IH]; intros svs st H; simpl in H.
  - apply Ret_inj in H. now subst.
  - simpl. bind_inv H. rewrite Ea. destruct a as [k1 k2]. simpl.
    bind_inv H. bind_inv H. bind_inv H. apply Ret_inj in H. subst svs.
    rewrite (@consider_pick_lead score placed c1 c2 k1 a st Ea0), pick_lead_app.
    destruct (pick_lead score placed a st) as [st1| |]; simpl; try reflexivity.
    rewrite (@consider_pick_lead score placed c1 c2 k2 a0 st1 Ea1), pick_lead_app.
    destruct (pick_lead score placed a0 st1) as [st2| |]; simpl; try reflexivity.
    now apply IH.
Qed.

(** The same for [select_candidate], the loop as [pack_A1_0] runs it. *)
Lemma select_candidate_sqrt_same_as_sum (placed : dict (Circle F)) (radius : F)
    (svs : list survivor) :
  survivors (values placed) radius (combinations2 (values placed)) = Ret svs ->
  (forall sv sv' s s', In sv svs -> In sv' svs ->
     survivor_sum (values placed) sv = Ret s ->
     survivor_sum (values placed) sv' = Ret s' ->
     same_order s s') ->
  select_candidate get_hole_degree placed radius =
  select_candidate neg_sum_distances placed radius.
Proof.
  intros Hsv Hord. unfold select_candidate.
  rewrite !(@select_loop_pick_lead _ _ _ _ _ _ Hsv).
  apply (@pick_lead_related (values placed) svs Hord).
  - apply incl_refl.
  - constructor.
Qed.

End HoleDegree.

(** C3 as stated fails: with one other circle at distance 4 the code
    scores -2, the negated plain sum is -4. *)
Lemma get_hole_degree_not_neg_sum :
  let cand := mkCircle 0%float 0%float 1%float in
  let g1 := mkCircle 0%float 2%float 1%float in
  let g2 := mkCircle 0%float (-2)%float 1%float in
  let other := mkCircle 4%float 0%float 3%float in
  get_hole_degree cand [g1; g2; other] (Some g1) (Some g2) = Ret (-2)%float /\
  neg_sum_distances cand [g1; g2; other] (Some g1) (Some g2) = Ret (-4)%float /\
  get_hole_degree cand [g1; g2; other] (Some g1) (Some g2) <>
  neg_sum_distances cand [g1; g2; other] (Some g1) (Some g2).
Proof.
  cbv zeta. split; [|split].
  - vm_compute. reflexivity.
  - vm_compute. reflexivity.
  - vm_compute. intros H. discriminate H.
Qed.

(** Two candidates with the sums 4 and 9: both scores pick the first. *)
Lemma pick_lead_sqrt_same_as_sum_witness :
  let g1 := mkCircle 0%float 100%float 1%float in
  let g2 := mkCircle 0%float (-100)%float 1%float in
  let other := mkCircle 0%float 0%float 3%float in
  let a := mkCircle (-4)%float 0%float 1%float in
  let b := mkCircle 9%float 0%float 1%float in
  res_map snd (pick_lead get_hole_degree [g1; g2; other]
                 [(b, g1, g2); (a, g1, g2)] (None, None)) =
  res_map snd (pick_lead neg_sum_distances [g1; g2; other]
                 [(b, g1, g2); (a, g1, g2)] (None, None)).
Proof.
  cbv zeta. apply pick_lead_sqrt_same_as_sum.
  intros sv sv' s s' [<-|[<-|[]]] [<-|[<-|[]]] Hs Hs';
    vm_compute in Hs, Hs'; apply Ret_inj in Hs, Hs'; subst s s';
    repeat split; vm_compute; reflexivity.
Defined.

(** C10 as stated fails on binary64: the sums 4.000000000000001 and 4 have
    the same rounded square root 2, so the first candidate met stays the
    lead under the code's score, while the negated sum prefers the second. *)
Lemma pick_lead_sqrt_differs_from_sum :
  let g1 := mkCircle 0%float 100%float 1%float in
  let g2 := mkCircle 0%float (-100)%float 1%float in
  let other := mkCircle 0%float 0%float 3%float in
  let a := mkCircle 0x1.0000000000001p2%float 0%float 1%float in
  let b := mkCircle (-4)%float 0%float 1%float in
  let placed := [g1; g2; other] in
  overlaps placed a = Ret false /\ overlaps placed b = Ret false /\
  res_map snd (pick_lead get_hole_degree placed
                 [(a, g1, g2); (b, g1, g2)] (None, None)) = Ret (Some a) /\
  res_map snd (pick_lead neg_sum_distances placed
                 [(a, g1, g2); (b, g1, g2)] (None, None)) = Ret (Some b) /\
  Some a <> Some b.
Proof.
  cbv zeta. repeat split; try (vm_compute; reflexivity).
  intros H. discriminate H.
Qed.

(** ** The processing order *)

Section Order.

Context {F : Type} {N : Num F}.
Local Open Scope num_scope.

Lemma insert_desc_perm (it : label * F) (l : list (label * F)) :
  Permutation (insert_desc it l) (it :: l).
Proof.
  induction l as [|h t IH]; simpl; [reflexivity|].
  destruct (snd it <? snd h); [|reflexivity].
  rewrite IH. apply perm_swap.
Qed.

Lemma sorted_desc_perm (data : dict F) : Permutation (sorted_desc data) data.
Proof.
  induction data as [|it rest IH]; simpl; [reflexivity|].
  rewrite insert_desc_perm. now constructor.
Qed.

Lemma sorted_desc_NoDup (data : dict F) :
  NoDup (keys data) -> NoDup (map fst (sorted_desc data)).
Proof.
  intros H. eapply Permutation_NoDup; [|exact H].
  apply Permutation_map, Permutation_sym, sorted_desc_perm.
Qed.

Section Ordered.

Variable ws : list F.
Hypothesis Hws : weights_ordered ws.

Lemma insert_desc_descending (it : label * F) (l : list (label * F)) :
  In (snd it) ws -> (forall k, In k l -> In (snd k) ws) ->
  descending l -> descending (insert_desc it l).
Proof.
  destruct Hws as [Hasym Hneg]. unfold descending.
  intros Hit. induction l as [|h t IH]; intros Hl Hsorted; simpl.
  - repeat constructor.
  - apply StronglySorted_inv in Hsorted as [Ht Hh].
    assert (Hhw : In (snd h) ws) by (apply Hl; now left).
    assert (Htw : forall k, In k t -> In (snd k) ws)
      by (intros k Hk; apply Hl; now right).
    destruct (snd it <? snd h) eqn:E.
    + constructor; [now apply IH|].
      rewrite Forall_forall in *. intros k Hk.
      apply (Permutation_in _ (insert_desc_perm it t)) in Hk.
      destruct Hk as [<-|Hk]; [now apply Hasym|now apply Hh].
    + constructor; [now constructor|].
      constructor; [exact E|].
      rewrite Forall_forall in *. intros k Hk.
      apply (Hneg (snd it) (snd h) (snd k)); auto.
Qed.

Lemma sorted_desc_descending (data : dict F) :
  (forall k, In k data -> In (snd k) ws) -> descending (sorted_desc data).
Proof.
  induction data as [|it rest IH]; intros Hd; simpl.
  - constructor.
  - apply insert_desc_descending.
    + apply Hd. now left.
    + intros k Hk. apply Hd. right.
      now apply (Permutation_in _ (sorted_desc_perm rest)).
    + apply IH. intros k Hk. apply Hd. now right.
Qed.

Lemma insert_desc_stable (w : F) (it : label * F) (l : list (label * F)) :
  In w ws -> In (snd it) ws -> (forall k, In k l -> In (snd k) ws) ->
  filter (same_weight w) (insert_desc it l) = filter (same_weight w) (it :: l).
Proof.
  destruct Hws as [Hasym Hneg].
  intros Hw Hit. induction l as [|h t IH]; intros Hl; [reflexivity|].
  assert (Hhw : In (snd h) ws) by (apply Hl; now left).
  simpl insert_desc. destruct (snd it <? snd h) eqn:E; [|reflexivity].
  change (filter (same_weight w) (h :: insert_desc it t))
    with (if same_weight w h then h :: filter (same_weight w) (insert_desc it t)
          else filter (same_weight w) (insert_desc it t)).
  rewrite IH by (intros k Hk; apply Hl; now right).
  simpl.
  destruct (same_weight w h) eqn:Eh; [|reflexivity].
  destruct (same_weight w it) eqn:Ei; [|reflexivity].
  exfalso. unfold same_weight in Eh, Ei.
  apply andb_prop in Eh as [Ewh _], Ei as [_ Eiw].
  apply negb_true_iff in Ewh, Eiw.
  rewrite (Hneg (snd it) w (snd h)) in E by auto. discriminate.
Qed.

Lemma sorted_desc_stable (w : F) (data : dict F) :
  In w ws -> (forall k, In k data -> In (snd k) ws) ->
  filter (same_weight w) (sorted_desc data) = filter (same_weight w) data.
Proof.
  intros Hw. induction data as [|it rest IH]; intros Hd; [reflexivity|].
  simpl sorted_desc. rewrite insert_desc_stable.
  - simpl. rewrite IH by (intros k Hk; apply Hd; now right). reflexivity.
  - exact Hw.
  - apply Hd. now left.
  - intros k Hk. apply Hd. right.
    now apply (Permutation_in _ (sorted_desc_perm rest)).
Qed.

End Ordered.

End Order.

(** binary64 weights are ordered as soon as none of them is NaN. *)
Lemma float_weights_ordered (ws : list float) :
  Forall (fun w => PrimFloat.is_nan w = false) ws -> weights_ordered ws.
Proof.
  rewrite Forall_forall. intros Hnan. split.
  - intros a b Ha Hb Hab. simpl in *.
    apply FloatFacts.ltb_key in Hab; auto.
    destruct (PrimFloat.ltb b a) eqn:Hba; [|reflexivity].
    apply FloatFacts.ltb_key in Hba; auto.
    now apply FloatFacts.key_lt_asym in Hab.
  - intros a b c Ha Hb Hc Hab Hbc. simpl in *.
    destruct (PrimFloat.ltb a c) eqn:Hac; [|reflexivity].
    apply FloatFacts.ltb_key in Hac; auto.
    exfalso. revert Hac. apply FloatFacts.key_lt_neg_trans with (b := sf_key (Prim2SF b)).
    + intros H. apply FloatFacts.ltb_key in H; auto. simpl in *. congruence.
    + intros H. apply FloatFacts.ltb_key in H; auto. simpl in *. congruence.
Qed.

Example sorted_desc_tie :
  sorted_desc [("a"%string, 1%float); ("b"%string, 2%float); ("c"%string, 1%float)]
  = [("b"%string, 2%float); ("a"%string, 1%float); ("c"%string, 1%float)].
Proof. vm_compute. reflexivity. Qed.

Lemma nth_error_lt {A} (l : list A) (n : nat) (a : A) :
  nth_error l n = Some a -> (n < List.length l)%nat.
Proof. intros H. apply nth_error_Some. rewrite H. discriminate. Qed.

(** ** Dictionaries *)

Section Dict.

Context {V : Type}.

Lemma dict_set_fresh (d : dict V) (k : label) (v : V) :
  ~ In k (keys d) -> dict_set d k v = d ++ [(k, v)].
Proof.
  induction d as [|[k' v'] d IH]; simpl; intros Hk; [reflexivity|].
  destruct (String.eqb_spec k' k) as [->|Hne].
  - exfalso. apply Hk. now left.
  - f_equal. apply IH. intros Hin. apply Hk. now right.
Qed.

Lemma dict_set_length (d : dict V) (k : label) (v : V) :
  (List.length (dict_set d k v) <= S (List.length d))%nat.
Proof.
  induction d as [|[k' v'] d IH]; simpl; [lia|].
  destruct (String.eqb k' k); simpl; lia.
Qed.

Lemma keys_app (d d' : dict V) : keys (d ++ d') = keys d ++ keys d'.
Proof. apply map_app. Qed.

Lemma values_app (d d' : dict V) : values (d ++ d') = values d ++ values d'.
Proof. apply map_app. Qed.

Lemma dict_get_set_same (d : dict V) (k : label) (v : V) :
  dict_get (dict_set d k v) k = Some v.
Proof.
  induction d as [|[k' v'] d IH]; simpl.
  - now rewrite String.eqb_refl.
  - destruct (String.eqb k' k) eqn:E; simpl.
    + now rewrite String.eqb_refl.
    + now rewrite E.
Qed.

Lemma dict_get_set_other (d : dict V) (k k' : label) (v : V) :
  k' <> k -> dict_get (dict_set d k v) k' = dict_get d k'.
Proof.
  intros Hne. induction d as [|[k0 v0] d IH]; simpl.
  - destruct (String.eqb_spec k k'); [congruence|reflexivity].
  - destruct (String.eqb_spec k0 k) as [->|Hk0]; simpl.
    + destruct (String.eqb_spec k k'); [congruence|].
      destruct (String.eqb_spec k k'); [congruence|reflexivity].
    + destruct (String.eqb k0 k'); [reflexivity|exact IH].
Qed.

Lemma dict_set_keys_present (d : dict V) (k : label) (v : V) :
  In k (keys d) -> keys (dict_set d k v) = keys d.
Proof.
  induction d as [|[k' v'] d IH]; simpl; intros Hk; [now elim Hk|].
  destruct (String.eqb_spec k' k) as [->|Hne]; [reflexivity|].
  simpl. f_equal. apply IH. destruct Hk as [Hk|Hk]; [congruence|exact Hk].
Qed.

End Dict.

(** ** The greedy packer *)

Section Packer.

Context {F : Type} {N : Num F}.
Local Open Scope num_scope.

Variable score : scorer (F := F).

Lemma get_placement_candidates_radius (radius : F) (c1 c2 : Circle F)
    (k1 k2 : option (Circle F)) :
  get_placement_candidates radius c1 c2 = Ret (k1, k2) ->
  (forall c, k1 = Some c -> r c = radius) /\
  (forall c, k2 = Some c -> r c = radius).
Proof.
  unfold get_placement_candidates. intros H. bind_inv H.
  destruct a as [[[i1x i1y]|] [[i2x i2y]|]]; apply Ret_inj in H;
    injection H as <- <-; split; intros c Hc; try discriminate;
    injection Hc as <-; reflexivity.
Qed.

Lemma consider_good (placed : list (Circle F)) (radius : F) (c1 c2 : Circle F)
    (st st' : lead) (cand : option (Circle F)) :
  good_lead placed radius st ->
  (forall c, cand = Some c -> r c = radius) ->
  consider score placed c1 c2 st cand = Ret st' ->
  good_lead placed radius st'.
Proof.
  intros Hst Hcand H. destruct cand as [c|]; simpl in H.
  - bind_inv H. destruct a.
    + apply Ret_inj in H. now subst.
    + unfold update_lead in H. bind_inv H.
      assert (Hnew : good_lead placed radius (Some a, Some c)).
      { intros c' Hc'. simpl in Hc'. injection Hc' as <-. split; auto. }
      destruct (fst st) as [mhd|].
      * destruct (mhd <? a); apply Ret_inj in H; now subst.
      * apply Ret_inj in H. now subst.
  - apply Ret_inj in H. now subst.
Qed.

Lemma select_loop_good (placed : list (Circle F)) (radius : F)
    (pairs : list (Circle F * Circle F)) :
  forall st st', good_lead placed radius st ->
    select_loop score placed radius pairs st = Ret st' ->
    good_lead placed radius st'.
Proof.
  induction pairs as [|[c1 c2] rest IH]; intros st st' Hst H; simpl in H.
  - apply Ret_inj in H. now subst.
  - bind_inv H. destruct a as [k1 k2]. bind_inv H. bind_inv H.
    apply get_placement_candidates_radius in Ea as [Hk1 Hk2].
    eapply IH; [|exact H].
    eapply consider_good; [|exact Hk2|exact Ea1].
    eapply consider_good; [exact Hst|exact Hk1|exact Ea0].
Qed.

Lemma select_candidate_good (placed : dict (Circle F)) (radius : F) (c : Circle F) :
  select_candidate score placed radius = Ret (Some c) ->
  r c = radius /\ overlaps (values placed) c = Ret false.
Proof.
  unfold select_candidate. intros H. bind_inv H. apply Ret_inj in H.
  eapply select_loop_good in Ea; [now apply Ea|].
  intros c' Hc'. discriminate Hc'.
Qed.

Lemma overlaps_false_clear (placed : list (Circle F)) (c : Circle F) :
  overlaps placed c = Ret false -> Forall (clear_of c) placed.
Proof.
  induction placed as [|pc rest IH]; simpl; intros H; [constructor|].
  bind_inv H. destruct (a <? zero) eqn:E; [discriminate|].
  constructor; [now exists a|now apply IH].
Qed.

(** An invariant of the loop holds of what [pack_loop] returns when the
    two ways of placing a circle preserve it. *)
Lemma pack_loop_invariant (P : dict (Circle F) -> Prop) (all : list (label * F)) :
  (forall placed l w radius,
      P placed -> In (l, w) all -> py_sqrt w = Ret radius ->
      (List.length placed <= 1)%nat -> ~ In l (keys placed) ->
      P (placed ++ [(l, seed_circle (List.length placed) radius)])) ->
  (forall placed l w radius c,
      P placed -> In (l, w) all -> py_sqrt w = Ret radius ->
      (2 <= List.length placed)%nat ->
      select_candidate score placed radius = Ret (Some c) ->
      ~ In l (keys placed) ->
      P (placed ++ [(l, c)])) ->
  forall items placed out,
    incl items all -> NoDup (map fst items) ->
    (forall l, In l (keys placed) -> ~ In l (map fst items)) ->
    P placed ->
    pack_loop score placed items = Ret out ->
    P out.
Proof.
  intros Hseed Hcand.
  induction items as [|[l w] rest IH]; intros placed out Hincl Hnd Hdisj HP H;
    simpl in H.
  - apply Ret_inj in H. now subst.
  - bind_inv H. rename a into radius.
    assert (Hin : In (l, w) all) by (apply Hincl; now left).
    assert (Hfresh : ~ In l (keys placed)).
    { intros Hl. apply (Hdisj l Hl). now left. }
    assert (Hrest : incl rest all) by (intros z Hz; apply Hincl; now right).
    inversion Hnd as [|? ? Hl Hnd']; subst.
    assert (Hdisj' : forall c l', In l' (keys (placed ++ [(l, c)])) ->
                                  ~ In l' (map fst rest)).
    { intros c l' Hl'. rewrite keys_app in Hl'. apply in_app_or in Hl'.
      destruct Hl' as [Hl'|[<-|[]]]; [|exact Hl].
      intros Hr. apply (Hdisj l' Hl'). now right. }
    destruct (List.length placed <=? 1)%nat eqn:En.
    + apply Nat.leb_le in En.
      rewrite dict_set_fresh in H by exact Hfresh.
      eapply IH; [exact Hrest|exact Hnd'|apply Hdisj'| |exact H].
      now apply Hseed with (w := w).
    + apply Nat.leb_gt in En. bind_inv H. destruct a as [c|].
      * rewrite dict_set_fresh in H by exact Hfresh.
        eapply IH; [exact Hrest|exact Hnd'|apply Hdisj'| |exact H].
        apply Hcand with (w := w) (radius := radius); auto.
      * apply Ret_inj in H. now subst.
Qed.

Lemma py_sqrt_Ret (w radius : F) : py_sqrt w = Ret radius -> radius = fsqrt w.
Proof.
  unfold py_sqrt. destruct (w <? zero); intros H; [discriminate|].
  apply Ret_inj in H. now subst.
Qed.

Lemma pack_loop_length (items : list (label * F)) :
  forall placed out,
    pack_loop score placed items = Ret out ->
    (List.length out <= List.length placed + List.length items)%nat.
Proof.
  induction items as [|[l w] rest IH]; intros placed out H; simpl in H.
  - apply Ret_inj in H. subst. simpl. lia.
  - bind_inv H. simpl.
    destruct (List.length placed <=? 1)%nat.
    + apply IH in H.
      pose proof (dict_set_length placed l
        (mkCircle (if (List.length placed =? 0)%nat then a else - a) zero a)).
      lia.
    + bind_inv H. destruct a0 as [c|].
      * apply IH in H. pose proof (dict_set_length placed l c). lia.
      * apply Ret_inj in H. subst. lia.
Qed.

(** Once the loop over [done] has returned [placed], running on with items
    on which the loop stays at [placed] returns [placed] as well. *)
Lemma pack_loop_app (done items : list (label * F)) (placed : dict (Circle F)) :
  pack_loop score placed items = Ret placed ->
  forall placed0,
    pack_loop score placed0 done = Ret placed ->
    pack_loop score placed0 (done ++ items) = Ret placed.
Proof.
  intros Hitems. induction done as [|[l w] rest IH]; intros placed0 H; simpl in H.
  - apply Ret_inj in H. now subst.
  - simpl. bind_inv H. rewrite Ea. simpl.
    destruct (List.length placed0 <=? 1)%nat.
    + now apply IH.
    + bind_inv H. rewrite Ea0. simpl. destruct a0 as [c|].
      * now apply IH.
      * exact H.
Qed.

(** When every label of [done] was placed the loop goes on from [placed]. *)
Lemma pack_loop_app_placed (done items : list (label * F)) :
  forall placed0 placed,
    pack_loop score placed0 done = Ret placed ->
    List.length placed = (List.length placed0 + List.length done)%nat ->
    pack_loop score placed0 (done ++ items) = pack_loop score placed items.
Proof.
  induction done as [|[l w] rest IH]; intros placed0 placed H Hlen; simpl in H.
  - apply Ret_inj in H. now subst.
  - simpl in Hlen. simpl. bind_inv H. rewrite Ea. simpl.
    destruct (List.length placed0 <=? 1)%nat.
    + pose proof (pack_loop_length _ _ H) as Hle.
      pose proof (dict_set_length placed0 l
        (mkCircle (if (List.length placed0 =? 0)%nat then a else - a) zero a)) as Hs.
      apply IH; [exact H|lia].
    + bind_inv H. rewrite Ea0. simpl. destruct a0 as [c|].
      * pose proof (pack_loop_length _ _ H) as Hle.
        pose proof (dict_set_length placed0 l c) as Hs.
        apply IH; [exact H|lia].
      * apply Ret_inj in H. subst. lia.
Qed.

Lemma pack_loop_break (placed : dict (Circle F)) (l : label) (w radius : F)
    (rest : list (label * F)) :
  py_sqrt w = Ret radius ->
  (2 <= List.length placed)%nat ->
  select_candidate score placed radius = Ret None ->
  pack_loop score placed ((l, w) :: rest) = Ret placed.
Proof.
  intros Hw Hn Hsel. simpl. rewrite Hw. simpl.
  destruct (Nat.leb_spec (List.length placed) 1) as [Hle|_]; [lia|].
  now rewrite Hsel.
Qed.

Lemma pack_loop_no_overlap (items : list (label * F)) (placed : dict (Circle F)) :
  NoDup (map fst items) ->
  pack_loop score [] items = Ret placed ->
  no_overlap placed.
Proof.
  intros Hnd H.
  set (P := fun d : dict (Circle F) =>
              no_overlap d /\
              forall p, nth_error (values d) 0 = Some p ->
                        exists r0, p = mkCircle r0 zero r0).
  assert (HP : P placed); [|apply HP].
  apply (@pack_loop_invariant P items) with (items := items) (placed := []);
    try assumption.
  - (* a seed *)
    intros d l w radius [Hno H0] _ _ Hlen _. split.
    + intros i j pi pj Hij Hi Hj. rewrite values_app in Hi, Hj.
      assert (Hlv : List.length (values d) = List.length d) by apply length_map.
      destruct (Nat.lt_ge_cases j (List.length d)) as [Hj'|Hj'].
      * rewrite nth_error_app1 in Hi, Hj by lia. now apply (Hno i j).
      * assert (Ej : j = List.length d).
        { apply nth_error_lt in Hj. rewrite length_app, Hlv in Hj. simpl in Hj. lia. }
        assert (Hd : List.length d = 1%nat) by lia.
        rewrite Hd in Ej. subst j. assert (Ei : i = 0%nat) by lia. subst i.
        rewrite nth_error_app1 in Hi by lia.
        rewrite nth_error_app2 in Hj by lia.
        rewrite Hlv, Hd in Hj. simpl in Hj. injection Hj as <-.
        destruct (H0 pi Hi) as [r0 ->].
        split; [|lia]. intros _. exists r0, radius. split; reflexivity.
    + intros p Hp. rewrite values_app in Hp.
      destruct d as [|e d']; simpl in Hp.
      * injection Hp as <-. now exists radius.
      * apply H0. exact Hp.
  - (* a candidate *)
    intros d l w radius c [Hno H0] _ _ Hlen Hsel _. split.
    + intros i j pi pj Hij Hi Hj. rewrite values_app in Hi, Hj.
      assert (Hlv : List.length (values d) = List.length d) by apply length_map.
      destruct (Nat.lt_ge_cases j (List.length d)) as [Hj'|Hj'].
      * rewrite nth_error_app1 in Hi, Hj by lia. now apply (Hno i j).
      * assert (Ej : j = List.length d).
        { apply nth_error_lt in Hj. rewrite length_app, Hlv in Hj. simpl in Hj. lia. }
        subst j.
        rewrite nth_error_app1 in Hi by lia.
        rewrite nth_error_app2 in Hj by lia.
        rewrite Hlv, Nat.sub_diag in Hj. simpl in Hj. injection Hj as <-.
        split; [lia|]. intros _.
        apply select_candidate_good in Hsel as [_ Hov].
        apply overlaps_false_clear in Hov. rewrite Forall_forall in Hov.
        apply Hov. eapply nth_error_In. exact Hi.
    + intros p Hp. rewrite values_app in Hp.
      destruct d as [|e d']; [simpl in Hlen; lia|]. apply H0. exact Hp.
  - apply incl_refl.
  - intros l Hl. destruct Hl.
  - split.
    + intros i j pi pj _ Hi. destruct i; discriminate Hi.
    + intros p Hp. discriminate Hp.
Qed.

Lemma pack_loop_radii (items : list (label * F)) (placed : dict (Circle F)) :
  NoDup (map fst items) ->
  pack_loop score [] items = Ret placed ->
  forall l c, In (l, c) placed -> exists w, In (l, w) items /\ r c = fsqrt w.
Proof.
  intros Hnd H.
  set (P := fun d : dict (Circle F) =>
              forall l c, In (l, c) d -> exists w, In (l, w) items /\ r c = fsqrt w).
  assert (HP : P placed); [|exact HP].
  apply (@pack_loop_invariant P items) with (items := items) (placed := []);
    try assumption.
  - intros d l w radius Hd Hin Hw _ _ l' c' Hc.
    apply in_app_or in Hc. destruct Hc as [Hc|[Hc|[]]]; [now apply Hd|].
    injection Hc as <- <-. exists w. split; [exact Hin|].
    simpl. now apply py_sqrt_Ret.
  - intros d l w radius c Hd Hin Hw _ Hsel _ l' c' Hc.
    apply in_app_or in Hc. destruct Hc as [Hc|[Hc|[]]]; [now apply Hd|].
    injection Hc as <- <-. exists w. split; [exact Hin|].
    apply select_candidate_good in Hsel as [-> _]. now apply py_sqrt_Ret.
  - apply incl_refl.
  - intros l' [].
  - intros l' c' [].
Qed.

(** The loop places one circle per item, in the order of the items, and
    stops early only at an item for which no candidate is found. *)
Lemma pack_loop_trace (items : list (label * F)) :
  forall placed0 out,
    (forall l, In l (keys placed0) -> ~ In l (map fst items)) ->
    NoDup (map fst items) ->
    pack_loop score placed0 items = Ret out ->
    exists new,
      out = placed0 ++ new /\
      Forall2 placed_for new (firstn (List.length new) items) /\
      (List.length new = List.length items \/
       (2 <= List.length out)%nat /\
       exists l w, nth_error items (List.length new) = Some (l, w) /\
                   select_candidate score out (fsqrt w) = Ret None).
Proof.
  induction items as [|[l w] rest IH]; intros placed0 out Hdisj Hnd H; simpl in H.
  - apply Ret_inj in H. subst. exists []. rewrite app_nil_r.
    split; [reflexivity|]. split; [constructor|now left].
  - bind_inv H. rename a into radius.
    pose proof (py_sqrt_Ret _ Ea) as Hrad.
    assert (Hfresh : ~ In l (keys placed0)).
    { intros Hl. apply (Hdisj l Hl). now left. }
    inversion Hnd as [|? ? Hl Hnd']; subst.
    assert (Hstep : forall c, r c = fsqrt w ->
              pack_loop score (dict_set placed0 l c) rest = Ret out ->
              exists new,
                out = placed0 ++ new /\
                Forall2 placed_for new (firstn (List.length new) ((l, w) :: rest)) /\
                (List.length new = List.length ((l, w) :: rest) \/
                 (2 <= List.length out)%nat /\
                 exists l' w', nth_error ((l, w) :: rest) (List.length new)
                               = Some (l', w') /\
                               select_candidate score out (fsqrt w') = Ret None)).
    { intros c Hc Hrun. rewrite dict_set_fresh in Hrun by exact Hfresh.
      apply IH in Hrun; [|intros l' Hl'|exact Hnd'].
      - destruct Hrun as (new & Hout & Hall & Hstop).
        exists ((l, c) :: new). split; [now rewrite Hout, <- app_assoc|].
        split.
        + simpl. constructor; [|exact Hall]. split; [reflexivity|exact Hc].
        + destruct Hstop as [Hlen|(Hn & l' & w' & Hnth & Hsel)].
          * left. simpl. now rewrite Hlen.
          * right. split; [exact Hn|]. exists l', w'. split; [exact Hnth|exact Hsel].
      - rewrite keys_app in Hl'. apply in_app_or in Hl'.
        destruct Hl' as [Hl'|[<-|[]]]; [|exact Hl].
        intros Hr. apply (Hdisj l' Hl'). now right. }
    destruct (Nat.leb_spec (List.length placed0) 1) as [Hle|Hgt].
    + eapply Hstep; [|exact H]. reflexivity.
    + bind_inv H. destruct a as [c|].
      * eapply Hstep; [|exact H].
        apply select_candidate_good in Ea0 as [Hc _]. now rewrite Hc.
      * apply Ret_inj in H. subst out. exists []. rewrite app_nil_r.
        split; [reflexivity|]. split; [constructor|].
        right. split; [lia|]. exists l, w. split; [reflexivity|exact Ea0].
Qed.

End Packer.

(** ** [pack_A1_0] *)

Section PackA10.

Context {F : Type} {N : Num F}.
Local Open Scope num_scope.

Lemma sorted_prefix_NoDup (data : dict F) (done rest : list (label * F)) :
  NoDup (keys data) -> sorted_desc data = done ++ rest -> NoDup (map fst done).
Proof.
  intros Hnd Hs. apply sorted_desc_NoDup in Hnd.
  rewrite Hs, map_app in Hnd. now apply NoDup_app_remove_r in Hnd.
Qed.

(** C7: the items of [data] sorted for the loop are a rearrangement of
    [data] in which no label comes before a heavier one and the labels
    of any one weight keep the order they have in [data]; and the loop
    takes them in that order: the mapping [pack_A1_0] returns holds, in
    insertion order, the circle of the first item, then of the second,
    and so on, each with the square root of the item's weight as
    radius, for all the items or up to the first one for which no
    candidate is found. *)
Theorem pack_A1_0_processing_order (data : dict F) :
  NoDup (keys data) ->
  weights_ordered (values data) ->
  (Permutation (sorted_desc data) data /\
   descending (sorted_desc data) /\
   forall w, In w (values data) ->
     filter (same_weight w) (sorted_desc data) = filter (same_weight w) data) /\
  forall placed, pack_A1_0 data = Ret placed ->
    processed_in_order get_hole_degree (sorted_desc data) placed.
Proof.
  intros Hnd Hws.
  assert (Hd : forall k, In k data -> In (snd k) (values data))
    by (intros k Hk; now apply in_map).
  split.
  - split; [apply sorted_desc_perm|]. split.
    + now apply sorted_desc_descending with (ws := values data).
    + intros w Hw. now apply sorted_desc_stable with (ws := values data).
  - intros placed H. unfold pack_A1_0, pack_with in H.
    apply pack_loop_trace in H; [|intros l []|now apply sorted_desc_NoDup].
    destruct H as (new & Hout & Hall & Hstop). simpl in Hout. subst new.
    split; [exact Hall|exact Hstop].
Qed.

(** [distance] raises nothing: it is the signed gap. *)
Lemma distance_signed_gap {L : NumLaws F} (c1 c2 : Circle F) :
  distance c1 c2 = Ret (signed_gap c1 c2).
Proof.
  destruct c1 as [x1 y1 r1], c2 as [x2 y2 r2].
  unfold distance, signed_gap, center_distance. simpl.
  now rewrite py_sqrt_sum_sq.
Qed.

(** C2, as the code has it: after any number of labels processed
    ([done], a prefix of the processing order; all of them for the
    mapping [pack_A1_0] returns), the first two circles placed are the
    seeds [(r0, 0, r0)] and [(-r1, 0, r1)], stored without any test,
    and every circle placed later has a signed gap (distance of the
    centres minus the two radii, as the arithmetic computes it) to every
    circle placed before it that is not negative.  Nothing holds of
    the gap of the two seeds, which rounding can make negative. *)
Theorem pack_A1_0_no_overlap {L : NumLaws F} (data : dict F)
    (done rest : list (label * F)) (placed : dict (Circle F)) :
  NoDup (keys data) ->
  sorted_desc data = done ++ rest ->
  pack_loop get_hole_degree [] done = Ret placed ->
  gaps_kept placed /\ (rest = [] -> pack_A1_0 data = Ret placed).
Proof.
  intros Hnd Hs H. split.
  - assert (Hno : no_overlap placed).
    { eapply pack_loop_no_overlap; [|exact H].
      eapply sorted_prefix_NoDup; eassumption. }
    intros i j pi pj Hij Hi Hj.
    destruct (Hno i j pi pj Hij Hi Hj) as [Hseed Hlater].
    split; [exact Hseed|].
    intros Hj2. destruct (Hlater Hj2) as (d & Hd & Hneg).
    rewrite distance_signed_gap in Hd. apply Ret_inj in Hd.
    now rewrite Hd.
  - intros ->. rewrite app_nil_r in Hs.
    unfold pack_A1_0, pack_with. now rewrite Hs.
Qed.

(** C6: when the labels [done] have given [placed] and no candidate is
    found for the next label, [pack_A1_0] returns [placed]: it raises
    nothing, the remaining labels are not looked at, and the result has
    fewer entries than [data]. *)
Theorem pack_A1_0_unplaceable (data : dict F) (done rest : list (label * F))
    (l : label) (w radius : F) (placed : dict (Circle F)) :
  sorted_desc data = done ++ (l, w) :: rest ->
  pack_loop get_hole_degree [] done = Ret placed ->
  py_sqrt w = Ret radius ->
  (2 <= List.length placed)%nat ->
  select_candidate get_hole_degree placed radius = Ret None ->
  pack_A1_0 data = Ret placed /\
  (List.length placed < List.length data)%nat.
Proof.
  intros Hs Hdone Hw Hn Hsel. split.
  - unfold pack_A1_0, pack_with. rewrite Hs.
    apply pack_loop_app; [|exact Hdone].
    now apply pack_loop_break with (radius := radius).
  - apply pack_loop_length in Hdone. simpl in Hdone.
    rewrite <- (Permutation_length (sorted_desc_perm data)), Hs, length_app.
    simpl. lia.
Qed.

(** C8: every placed circle has the square root of its label's weight as
    radius; with two labels or more the label processed first (no label
    is heavier, when the weights are ordered) sits at [(r0, 0)] and the
    second at [(-r1, 0)]. *)
Theorem pack_A1_0_radii_and_seeds (data : dict F) (placed : dict (Circle F)) :
  NoDup (keys data) ->
  (2 <= List.length data)%nat ->
  pack_A1_0 data = Ret placed ->
  (forall l c, In (l, c) placed -> exists w, In (l, w) data /\ r c = fsqrt w) /\
  exists l0 w0 l1 w1 rest more,
    sorted_desc data = (l0, w0) :: (l1, w1) :: rest /\
    (weights_ordered (values data) ->
     forall k, In k data -> (w0 <? snd k) = false) /\
    placed = (l0, mkCircle (fsqrt w0) zero (fsqrt w0))
             :: (l1, mkCircle (- fsqrt w1) zero (fsqrt w1)) :: more.
Proof.
  intros Hnd Hlen H. unfold pack_A1_0, pack_with in H.
  pose proof (sorted_desc_NoDup data Hnd) as Hnds.
  pose proof (sorted_desc_perm data) as Hperm.
  split.
  - intros l c Hc.
    destruct (@pack_loop_radii F N get_hole_degree _ _ Hnds H l c Hc) as (w & Hw & Hr).
    exists w. split; [|exact Hr]. now apply (Permutation_in _ Hperm).
  - apply Permutation_length in Hperm.
    destruct (sorted_desc data) as [|[l0 w0] [|[l1 w1] rest]] eqn:Es;
      try (simpl in Hperm; lia).
    simpl in H. bind_inv H. apply py_sqrt_Ret in Ea. subst a.
    bind_inv H. apply py_sqrt_Ret in Ea. subst a.
    inversion Hnds as [|? ? Hl0 Hnd1]; subst.
    inversion Hnd1 as [|? ? Hl1 Hnd2]; subst.
    destruct (String.eqb_spec l0 l1) as [->|Hne].
    { exfalso. apply Hl0. now left. }
    set (e0 := (l0, mkCircle (fsqrt w0) zero (fsqrt w0))) in *.
    set (e1 := (l1, mkCircle (- fsqrt w1) zero (fsqrt w1))) in *.
    set (P := fun d : dict (Circle F) => exists more, d = e0 :: e1 :: more).
    assert (HP : P placed).
    { apply (@pack_loop_invariant F N get_hole_degree P rest)
        with (items := rest) (placed := [e0; e1]); try assumption.
      - intros d l w radius [more ->] _ _ Hd _. simpl in Hd. lia.
      - intros d l w radius c [more ->] _ _ _ _ _. now exists (more ++ [(l, c)]).
      - apply incl_refl.
      - intros l' [<-|[<-|[]]] Hin.
        + apply Hl0. now right.
        + now apply Hl1.
      - now exists []. }
    destruct HP as [more ->].
    exists l0, w0, l1, w1, rest, more. split; [reflexivity|]. split; [|reflexivity].
    intros Hws k Hk.
    pose proof (@sorted_desc_descending F N (values data) Hws data) as Hdesc.
    rewrite Es in Hdesc.
    assert (Hd : forall k, In k data -> In (snd k) (values data))
      by (intros k' Hk'; now apply in_map).
    specialize (Hdesc Hd). apply StronglySorted_inv in Hdesc as [_ Hall].
    assert (Hk' : In k ((l0, w0) :: (l1, w1) :: rest)).
    { rewrite <- Es. apply (Permutation_in _ (Permutation_sym (sorted_desc_perm data))). exact Hk. }
    destruct Hk' as [<-|Hk'].
    + simpl. destruct Hws as [Hasym _].
      destruct (w0 <? w0) eqn:E; [|reflexivity].
      assert (Hw0 : In w0 (values data)).
      { apply (Hd (l0, w0)). exact Hk. }
      now rewrite (Hasym w0 w0 Hw0 Hw0 E) in E.
    + rewrite Forall_forall in Hall. now apply Hall.
Qed.

End PackA10.

Lemma three_ones_NoDup : NoDup (keys three_ones).
Proof. repeat constructor; simpl; intuition discriminate. Qed.

(** Three weights with a tie: "b" first, then "a" and "c" in input
    order; all three are placed, in that order. *)
Lemma pack_A1_0_processing_order_witness :
  let data : dict float := [("a"%string, 1%float); ("b"%string, 2%float);
                            ("c"%string, 1%float)] in
  exists placed,
    pack_A1_0 data = Ret placed /\
    keys placed = ["b"%string; "a"%string; "c"%string] /\
    processed_in_order get_hole_degree (sorted_desc data) placed /\
    Permutation (sorted_desc data) data /\
    descending (sorted_desc data) /\
    forall w, In w (values data) ->
      filter (same_weight w) (sorted_desc data) = filter (same_weight w) data.
Proof.
  cbv zeta.
  destruct (@pack_A1_0_processing_order float float_Num
              [("a"%string, 1%float); ("b"%string, 2%float); ("c"%string, 1%float)])
    as [(Hperm & Hdesc & Hstable) Hproc].
  - repeat constructor; simpl; intuition discriminate.
  - apply float_weights_ordered. repeat constructor.
  - eexists. split; [vm_compute; reflexivity|]. split; [reflexivity|].
    split; [apply Hproc; vm_compute; reflexivity|].
    split; [exact Hperm|]. split; [exact Hdesc|exact Hstable].
Defined.

(** Three unit circles: the packer places all three; the third keeps
    its distance to both seeds. *)
Lemma pack_A1_0_no_overlap_witness :
  exists placed,
    pack_A1_0 three_ones = Ret placed /\ List.length placed = 3%nat /\
    gaps_kept placed.
Proof.
  eexists. split; [vm_compute; reflexivity|]. split; [reflexivity|].
  apply (@pack_A1_0_no_overlap float float_Num float_NumLaws three_ones
           (sorted_desc three_ones) []).
  - exact three_ones_NoDup.
  - vm_compute. reflexivity.
  - vm_compute. reflexivity.
Defined.

(** C2 as stated fails with binary64 numbers: the seeds of weights 925
    and 903, of radii 30.41... and 30.04..., have the signed gap
    [-2^-48], about -3.55e-15, which is below [- margin], about
    -2.22e-15.  They are not exactly tangent by the code's measure, and
    the mapping [pack_A1_0] returns has a pair that overlaps by more
    than the margin. *)
Lemma pack_A1_0_seeds_overlap :
  exists placed a b,
    pack_A1_0 tight_seeds = Ret placed /\
    nth_error (values placed) 0 = Some a /\
    nth_error (values placed) 1 = Some b /\
    distance a b = Ret (-0x1p-48)%float /\
    signed_gap a b = (-0x1p-48)%float /\
    (signed_gap a b <? - margin)%num = true /\
    ~ within_margin placed.
Proof.
  eexists. eexists. eexists.
  split; [vm_compute; reflexivity|].
  split; [reflexivity|]. split; [reflexivity|].
  split; [vm_compute; reflexivity|].
  split; [vm_compute; reflexivity|].
  split; [vm_compute; reflexivity|].
  intros H. specialize (H 0%nat 1%nat _ _ (Nat.lt_0_succ 0) eq_refl eq_refl).
  vm_compute in H. discriminate H.
Qed.

(** With a circle of radius 2^60 and two of radius 1, the one candidate
    for "c" overlaps "a" by the code's own measure: "c" is left out. *)
Lemma pack_A1_0_unplaceable_witness :
  exists placed,
    pack_A1_0 one_huge = Ret placed /\
    (List.length placed < List.length one_huge)%nat.
Proof.
  eexists.
  apply (@pack_A1_0_unplaceable float float_Num one_huge
           [("a"%string, 0x1p120%float); ("b"%string, 1%float)] []
           "c"%string 1%float 1%float).
  - vm_compute. reflexivity.
  - vm_compute. reflexivity.
  - vm_compute. reflexivity.
  - simpl. lia.
  - vm_compute. reflexivity.
Defined.

Lemma pack_A1_0_radii_and_seeds_witness :
  exists placed,
    pack_A1_0 three_ones = Ret placed /\
    (forall l c, In (l, c) placed ->
       exists w, In (l, w) three_ones /\ r c = fsqrt w) /\
    exists l0 w0 l1 w1 rest more,
      sorted_desc three_ones = (l0, w0) :: (l1, w1) :: rest /\
      (weights_ordered (values three_ones) ->
       forall k, In k three_ones -> fltb w0 (snd k) = false) /\
      placed = (l0, mkCircle (fsqrt w0) zero (fsqrt w0))
               :: (l1, mkCircle (fopp (fsqrt w1)) zero (fsqrt w1)) :: more.
Proof.
  eexists. split; [vm_compute; reflexivity|].
  apply (@pack_A1_0_radii_and_seeds float float_Num three_ones).
  - exact three_ones_NoDup.
  - simpl. lia.
  - vm_compute. reflexivity.
Defined.

(** ** The enclosing circle *)

Section Enclose.

Context {F : Type} {N : Num F}.
Local Open Scope num_scope.

Lemma enclose_loop_scanned (circles : list (Circle F)) (fuel : nat) :
  forall i B e out,
    scanned circles i e ->
    enclose_loop fuel circles i B e = Ret out ->
    scanned circles (List.length circles) out.
Proof.
  induction fuel as [|fuel IH]; intros i B e out Hinv H; simpl in H.
  - destruct (Nat.leb_spec (List.length circles) i) as [Hle|Hlt]; [|discriminate].
    apply Ret_inj in H. subst out.
    intros k p Hk Hp. apply (Hinv k p); [lia|exact Hp].
  - destruct (Nat.leb_spec (List.length circles) i) as [Hle|Hlt].
    { apply Ret_inj in H. subst out.
      intros k p Hk Hp. apply (Hinv k p); [lia|exact Hp]. }
    destruct (nth_error circles i) as [p|] eqn:Ep; [|discriminate].
    destruct (match e with Some e0 => enclosesWeak e0 p | None => false end) eqn:Ew.
    + apply IH in H; [exact H|].
      intros k q Hk Hq.
      destruct (Nat.eq_dec k i) as [->|Hne].
      * rewrite Ep in Hq. injection Hq as <-.
        destruct e as [e0|]; [|discriminate]. now exists e0.
      * apply (Hinv k q); [lia|exact Hq].
    + bind_inv H. bind_inv H. apply IH in H; [exact H|].
      intros k q Hk. lia.
Qed.

Section Shuffled.

Variable shuffle : list (Circle F) -> list (Circle F).
Hypothesis shuffle_perm : forall l, Permutation (shuffle l) l.

(** C1: for a mapping that is not empty, what [enclose] returns is a
    circle [e] with [enclosesWeak e c] for every circle [c] of the mapping,
    whatever order the shuffle has put them in. *)
Theorem enclose_encloses_all (fuel : nat) (packed_circles : dict (Circle F))
    (out : option (Circle F)) :
  packed_circles <> [] ->
  enclose shuffle fuel packed_circles = Ret out ->
  exists e, out = Some e /\ encloses_all e packed_circles.
Proof.
  intros Hne H. unfold enclose in H.
  apply enclose_loop_scanned in H; [|intros k p Hk; lia].
  assert (Hall : forall c, In c (values packed_circles) ->
                   exists e0, out = Some e0 /\ enclosesWeak e0 c = true).
  { intros c Hc.
    apply (Permutation_in _ (Permutation_sym (shuffle_perm _))) in Hc.
    destruct (In_nth_error _ _ Hc) as [k Hk].
    apply (H k c); [|exact Hk]. now apply nth_error_lt in Hk. }
  destruct packed_circles as [|[l0 c0] rest]; [now elim Hne|].
  destruct (Hall c0) as (e & -> & _); [now left|].
  exists e. split; [reflexivity|].
  intros l c Hc. destruct (Hall c) as (e' & He' & Hw).
  - change c with (snd (l, c)). now apply in_map.
  - injection He' as <-. exact Hw.
Qed.

End Shuffled.

End Enclose.

(** In exact arithmetic [enclosesWeak e c] says what the spec writes:
    centre distance plus [r c] stays below [r e] plus the tolerance. *)
Lemma enclosesWeak_real (e c : Circle R) :
  enclosesWeak e c = true ->
  (sqrt ((x c - x e) * (x c - x e) + (y c - y e) * (y c - y e)) + r c
   < r e + 1 / 1000000)%R.
Proof.
  unfold enclosesWeak. simpl. unfold Rltb.
  set (dr := (r e - r c + 1 / 1000000)%R).
  set (sq := ((x c - x e) * (x c - x e) + (y c - y e) * (y c - y e))%R).
  destruct (Rlt_dec 0 dr) as [Hdr|]; [|discriminate].
  destruct (Rlt_dec sq (dr * dr)) as [Hsq|]; [|discriminate].
  intros _.
  assert (Hs : (sqrt sq < dr)%R).
  { rewrite <- (sqrt_square dr) by lra.
    apply sqrt_lt_1_alt. split; [|exact Hsq].
    pose proof (Rle_0_sqr (x c - x e)) as Hx.
    pose proof (Rle_0_sqr (y c - y e)) as Hy.
    unfold Rsqr in Hx, Hy. unfold sq. lra. }
  unfold dr in Hs. lra.
Qed.

(** The three unit circles, scanned in insertion order. *)
Lemma enclose_encloses_all_witness :
  exists packed e,
    pack_A1_0 three_ones = Ret packed /\
    enclose (fun l => l) 20 packed = Ret (Some e) /\
    encloses_all e packed.
Proof.
  eexists. eexists. split; [vm_compute; reflexivity|].
  split; [vm_compute; reflexivity|].
  match goal with |- encloses_all ?e ?packed =>
    destruct (@enclose_encloses_all float float_Num (fun l => l)
                (fun l => Permutation_refl l) 20 packed (Some e)) as (e' & He' & Hall)
  end.
  - discriminate.
  - vm_compute. reflexivity.
  - injection He' as <-. exact Hall.
Defined.

(** ** Scaling and [circlify] *)

Section Scale.

Context {F : Type} {N : Num F}.
Local Open Scope num_scope.

Lemma py_div_Ret (a b q : F) : py_div a b = Ret q -> q = a / b.
Proof.
  unfold py_div. destruct (b =? zero); intros H; [discriminate|].
  apply Ret_inj in H. now subst.
Qed.

Lemma normalized_all_keys (e : Circle F) (circles : dict (Circle F)) :
  keys (normalized_all e circles) = keys circles.
Proof. unfold keys, normalized_all. rewrite map_map. reflexivity. Qed.

Lemma scale_loop_normalized (e : Circle F) (circles : dict (Circle F)) :
  forall scaled out,
    NoDup (keys scaled ++ keys circles) ->
    scale_loop scaled circles (x e) (y e) (r e) = Ret out ->
    out = scaled ++ normalized_all e circles.
Proof.
  induction circles as [|[l [x_c y_c r_c]] rest IH]; intros scaled out Hnd H;
    simpl in H.
  - apply Ret_inj in H. subst. simpl. now rewrite app_nil_r.
  - bind_inv H. bind_inv H. bind_inv H.
    apply py_div_Ret in Ea, Ea0, Ea1. subst.
    simpl in Hnd.
    rewrite dict_set_fresh in H.
    + apply IH in H.
      * rewrite H, <- app_assoc. reflexivity.
      * rewrite keys_app, <- app_assoc. exact Hnd.
    + apply NoDup_remove_2 in Hnd. intros Hin. apply Hnd.
      apply in_or_app. now left.
Qed.

Lemma scale_normalized (e : Circle F) (circles out : dict (Circle F)) :
  NoDup (keys circles) ->
  scale circles (x e) (y e) (r e) = Ret out ->
  out = normalized_all e circles.
Proof. intros Hnd H. now apply scale_loop_normalized in H. Qed.

(** [scale] returns unless the radius scaled to is zero. *)
Lemma scale_returns (e : Circle F) (circles : dict (Circle F)) :
  (r e =? zero) = false ->
  forall scaled, exists out, scale_loop scaled circles (x e) (y e) (r e) = Ret out.
Proof.
  intros Hr. induction circles as [|[l [x_c y_c r_c]] rest IH]; intros scaled; simpl.
  - now exists scaled.
  - unfold py_div. rewrite Hr. simpl. apply IH.
Qed.

Lemma pack_loop_keys_NoDup (score : scorer) (items : list (label * F))
    (placed : dict (Circle F)) :
  NoDup (map fst items) ->
  pack_loop score [] items = Ret placed ->
  NoDup (keys placed).
Proof.
  intros Hnd H.
  apply (@pack_loop_invariant F N score (fun d => NoDup (keys d)) items)
    with (items := items) (placed := []); try assumption.
  - intros d l w radius Hd _ _ _ Hl. rewrite keys_app. simpl.
    apply NoDup_app; [exact Hd|repeat constructor; intros []|].
    intros k Hk [<-|[]]. now apply Hl.
  - intros d l w radius c Hd _ _ _ _ Hl. rewrite keys_app. simpl.
    apply NoDup_app; [exact Hd|repeat constructor; intros []|].
    intros k Hk [<-|[]]. now apply Hl.
  - apply incl_refl.
  - intros l [].
  - constructor.
Qed.

End Scale.

Section CirclifyEntry.

Context {F : Type} {N : Num F}.
Local Open Scope num_scope.

Variable shuffle : list (Circle F) -> list (Circle F).
Hypothesis shuffle_perm : forall l, Permutation (shuffle l) l.

(** C9, as the code has it: [scale] turns each circle into its
    [normalized] form under the same key (it returns unless the radius
    scaled to is zero); [circlify] returns that mapping when [with_unit]
    is false, and when it is true sets the empty key to the unit circle,
    which adds one entry at the end unless the empty key is a placed
    label, whose circle is then replaced. *)
Theorem scale_and_circlify_output :
  (forall (e : Circle F) (circles : dict (Circle F)),
      NoDup (keys circles) -> (r e =? zero) = false ->
      scale circles (x e) (y e) (r e) = Ret (normalized_all e circles) /\
      keys (normalized_all e circles) = keys circles) /\
  (forall (fuel : nat) (data : dict F) (with_unit : bool) (out : dict (Circle F)),
      NoDup (keys data) ->
      circlify shuffle fuel data with_unit = Ret out ->
      exists placed e,
        pack_A1_0 data = Ret placed /\
        enclose shuffle fuel placed = Ret (Some e) /\
        (with_unit = false -> out = normalized_all e placed) /\
        (with_unit = true ->
           dict_get out EmptyString = Some unit_circle /\
           (forall l, l <> EmptyString ->
              dict_get out l = dict_get (normalized_all e placed) l) /\
           (~ In EmptyString (keys placed) ->
              out = normalized_all e placed ++ [(EmptyString, unit_circle)]) /\
           (In EmptyString (keys placed) -> keys out = keys placed))).
Proof.
  split.
  - intros e circles Hnd Hr. split; [|apply normalized_all_keys].
    destruct (@scale_returns F N e circles Hr []) as [out Hout].
    unfold scale. rewrite Hout. f_equal.
    now apply scale_normalized.
  - intros fuel data with_unit out Hnd H. unfold circlify in H.
    bind_inv H. rename a into placed. bind_inv H.
    destruct a as [e|]; [|discriminate].
    destruct e as [ex ey er]. bind_inv H.
    assert (Hk : NoDup (keys placed)).
    { eapply pack_loop_keys_NoDup; [|exact Ea]. now apply sorted_desc_NoDup. }
    pose proof (@scale_normalized F N (mkCircle ex ey er) placed a Hk Ea1) as ->.
    exists placed, (mkCircle ex ey er).
    split; [exact Ea|]. split; [exact Ea0|].
    destruct with_unit; apply Ret_inj in H; subst out.
    + split; [discriminate|]. intros _.
      split; [apply dict_get_set_same|].
      split; [intros l Hl; now apply dict_get_set_other|].
      split.
      * intros Hfresh. apply dict_set_fresh. now rewrite normalized_all_keys.
      * intros Hin. rewrite dict_set_keys_present; rewrite normalized_all_keys; auto.
    + split; [reflexivity|discriminate].
Qed.

Lemma pack_loop_negative (score : scorer) (placed : dict (Circle F))
    (l : label) (w : F) (rest : list (label * F)) :
  (w <? zero) = true ->
  pack_loop score placed ((l, w) :: rest) = Raise ValueError.
Proof. intros Hw. simpl. unfold py_sqrt. now rewrite Hw. Qed.

Lemma placed_for_keys (placed : dict (Circle F)) (items : list (label * F)) :
  Forall2 placed_for placed items -> keys placed = map fst items.
Proof.
  induction 1 as [|p it ps its [Hl _] _ IH]; simpl; [reflexivity|].
  now rewrite Hl, IH.
Qed.

(** A weight that is not negative, met as first or second label, is
    stored as a seed. *)
Lemma pack_loop_seed (data : dict F) (done : list (label * F)) (l : label)
    (w : F) (rest : list (label * F)) (placed : dict (Circle F)) :
  NoDup (keys data) ->
  sorted_desc data = done ++ (l, w) :: rest ->
  pack_loop get_hole_degree [] done = Ret placed ->
  List.length placed = List.length done ->
  (List.length done <= 1)%nat ->
  (w <? zero) = false ->
  pack_loop get_hole_degree [] (done ++ [(l, w)]) =
  Ret (placed ++ [(l, seed_circle (List.length placed) (fsqrt w))]).
Proof.
  intros Hnd Hs Hdone Hlen Hle Hw.
  apply sorted_desc_NoDup in Hnd. rewrite Hs, map_app in Hnd. simpl in Hnd.
  assert (Hfresh : ~ In l (keys placed)).
  { assert (Hnd' : NoDup (map fst done)) by now apply NoDup_app_remove_r in Hnd.
    destruct (@pack_loop_trace F N get_hole_degree done [] placed) as
      (new & Hout & Hall & _); [intros l' []|exact Hnd'|exact Hdone|].
    simpl in Hout. subst new.
    rewrite Hlen, firstn_all in Hall.
    rewrite (placed_for_keys Hall).
    apply NoDup_remove_2 in Hnd. intros Hin. apply Hnd.
    apply in_or_app. now left. }
  rewrite (@pack_loop_app_placed F N get_hole_degree done [(l, w)] [] placed Hdone Hlen).
  simpl. unfold py_sqrt. rewrite Hw. simpl.
  destruct (Nat.leb_spec (List.length placed) 1) as [_|Hgt]; [|lia].
  now rewrite dict_set_fresh by exact Hfresh.
Qed.

(** A single label whose weight has the square root zero: the one
    circle is its own enclosure, and [scale] divides by its radius. *)
Lemma circlify_single_zero (fuel : nat) (l : label) (w : F) (with_unit : bool) :
  let c := mkCircle (fsqrt w) zero (fsqrt w) in
  (w <? zero) = false ->
  (fsqrt w =? zero) = true ->
  enclosesWeak c c = true ->
  (2 <= fuel)%nat ->
  circlify shuffle fuel [(l, w)] with_unit = Raise ZeroDivisionError.
Proof.
  intros c Hw Hr Hc Hf.
  unfold circlify, pack_A1_0, pack_with. simpl sorted_desc. simpl pack_loop.
  unfold py_sqrt. rewrite Hw. cbn [bind]. fold c.
  unfold enclose. cbn [values map snd].
  assert (Hs : shuffle [c] = [c]).
  { apply Permutation_length_1_inv, Permutation_sym, shuffle_perm. }
  rewrite Hs.
  destruct fuel as [|[|fuel]]; try lia.
  cbn [enclose_loop List.length Nat.leb nth_error].
  unfold extendBasis. cbn [enclosesWeakAll forallb bind encloseBasis].
  cbn [enclose_loop List.length Nat.leb nth_error]. rewrite Hc.
  cbn [Nat.add].
  assert (He : forall f, enclose_loop f [c] 1 [c] (Some c) = Ret (Some c))
    by (intros []; reflexivity).
  rewrite He. cbn [bind]. unfold c at 1. unfold scale. simpl scale_loop.
  unfold py_div. rewrite Hr. reflexivity.
Qed.

(** C4, as the code has it: [circlify] checks nothing itself.  An empty
    mapping ends in the TypeError of unpacking the missing enclosure; a
    negative weight ends in the ValueError of [math.sqrt] when the loop
    comes to its label, which it does when every label before it was
    placed.  A weight of zero is not negative and [math.sqrt] takes it:
    met as first or second label it is stored as a seed of radius
    [sqrt 0], and a mapping of that one label ends in the
    ZeroDivisionError of [scale] dividing by the radius of the
    enclosure. *)
Theorem circlify_invalid_input (fuel : nat) (with_unit : bool) :
  circlify shuffle fuel [] with_unit = Raise TypeError /\
  (forall data done l w rest placed,
      sorted_desc data = done ++ (l, w) :: rest ->
      pack_loop get_hole_degree [] done = Ret placed ->
      List.length placed = List.length done ->
      (w <? zero) = true ->
      circlify shuffle fuel data with_unit = Raise ValueError) /\
  (forall data done l w rest placed,
      NoDup (keys data) ->
      sorted_desc data = done ++ (l, w) :: rest ->
      pack_loop get_hole_degree [] done = Ret placed ->
      List.length placed = List.length done ->
      (List.length done <= 1)%nat ->
      (w <? zero) = false ->
      pack_loop get_hole_degree [] (done ++ [(l, w)]) =
      Ret (placed ++ [(l, seed_circle (List.length placed) (fsqrt w))])) /\
  (forall l w,
      (w <? zero) = false ->
      (fsqrt w =? zero) = true ->
      enclosesWeak (mkCircle (fsqrt w) zero (fsqrt w))
                   (mkCircle (fsqrt w) zero (fsqrt w)) = true ->
      (2 <= fuel)%nat ->
      circlify shuffle fuel [(l, w)] with_unit = Raise ZeroDivisionError).
Proof.
  split; [|split; [|split]].
  - unfold circlify, enclose. simpl.
    rewrite (Permutation_nil (Permutation_sym (shuffle_perm []))).
    destruct fuel; reflexivity.
  - intros data done l w rest placed Hs Hdone Hlen Hw.
    unfold circlify, pack_A1_0, pack_with. rewrite Hs.
    rewrite (@pack_loop_app_placed F N get_hole_degree done ((l, w) :: rest)
               [] placed Hdone Hlen).
    rewrite pack_loop_negative by exact Hw. reflexivity.
  - intros data done l w rest placed. apply pack_loop_seed.
  - intros l w. apply circlify_single_zero.
Qed.

End CirclifyEntry.

(** The three unit circles with the unit circle added. *)
Lemma scale_and_circlify_output_witness :
  exists out,
    circlify (fun l => l) 20 three_ones true = Ret out /\
    dict_get out EmptyString = Some unit_circle /\
    keys out = ["a"%string; "b"%string; "c"%string; EmptyString].
Proof.
  eexists. split; [vm_compute; reflexivity|].
  match goal with |- dict_get ?out _ = _ /\ _ =>
    destruct (proj2 (@scale_and_circlify_output float float_Num (fun l => l))
                20 three_ones true out three_ones_NoDup)
      as (placed & e & _ & _ & _ & Hunit)
  end.
  - vm_compute. reflexivity.
  - destruct (Hunit eq_refl) as (Hget & _). split; [exact Hget|].
    vm_compute. reflexivity.
Defined.

(** C9 as stated fails: with the empty label among the labels and
    [with_unit] true, the unit circle takes the place of that label's
    circle [(0.5, 0, 0.5)]; the output has the two keys of the placed
    mapping and no entry more. *)
Lemma circlify_unit_replaces_empty_label :
  pack_A1_0 empty_label =
    Ret [(EmptyString, mkCircle 1%float 0%float 1%float);
         ("a"%string, mkCircle (-1)%float 0%float 1%float)] /\
  circlify (fun l => l) 20 empty_label false =
    Ret [(EmptyString, mkCircle 0.5%float 0%float 0.5%float);
         ("a"%string, mkCircle (-0.5)%float 0%float 0.5%float)] /\
  circlify (fun l => l) 20 empty_label true =
    Ret [(EmptyString, mkCircle 0%float 0%float 1%float);
         ("a"%string, mkCircle (-0.5)%float 0%float 0.5%float)].
Proof. repeat split; vm_compute; reflexivity. Qed.

(** One label of weight -1: [math.sqrt] raises.  One label of weight 0:
    [scale] divides by zero.  Weights 1 and 0: the second label becomes
    the seed of radius 0. *)
Lemma circlify_invalid_input_witness :
  circlify (fun l => l) 20 negative_weight false = Raise ValueError /\
  circlify (fun l => l) 20 zero_alone false = Raise ZeroDivisionError /\
  pack_loop get_hole_degree [] ([("a"%string, 1%float)] ++ [("b"%string, 0%float)])
  = Ret ([("a"%string, mkCircle 1%float 0%float 1%float)]
         ++ [("b"%string, seed_circle 1 (fsqrt 0%float))]) /\
  seed_circle 1 (fsqrt 0%float) = mkCircle (-0)%float 0%float 0%float.
Proof.
  destruct (@circlify_invalid_input float float_Num (fun l => l)
              (fun l => Permutation_refl l) 20 false)
    as (_ & Hneg & Hseed & Hzero).
  split; [|split; [|split; [|vm_compute; reflexivity]]].
  - apply Hneg with (done := []) (l := "a"%string) (w := (-1)%float) (rest := [])
                    (placed := []).
    + vm_compute. reflexivity.
    + reflexivity.
    + reflexivity.
    + vm_compute. reflexivity.
  - apply Hzero.
    + vm_compute. reflexivity.
    + vm_compute. reflexivity.
    + vm_compute. reflexivity.
    + lia.
  - apply Hseed with (data := zero_weight) (rest := []).
    + repeat constructor; simpl; intuition discriminate.
    + vm_compute. reflexivity.
    + vm_compute. reflexivity.
    + reflexivity.
    + simpl. lia.
    + vm_compute. reflexivity.
Defined.

(** C4 as stated fails: a weight of zero is not rejected; [circlify]
    returns, with a circle of radius zero for that label. *)
Lemma circlify_accepts_zero_weight :
  circlify (fun l => l) 20 zero_weight false =
    Ret [("a"%string, mkCircle 0%float 0%float 1%float);
         ("b"%string, mkCircle (-1)%float 0%float 0%float)].
Proof. vm_compute. reflexivity. Qed.

(** A weight of zero as third label: for the two seeds grown by the
    margin alone, [get_intersection] takes the square root of a number
    that rounding has made negative, and the ValueError of that
    [math.sqrt] ends [pack_A1_0] and [circlify]. *)
Example circlify_zero_third_raises :
  get_intersection
    (inflated 0%float (mkCircle (fsqrt 1000%float) 0%float (fsqrt 1000%float)))
    (inflated 0%float (mkCircle (-1)%float 0%float 1%float))
  = Raise ValueError /\
  pack_A1_0 zero_third = Raise ValueError /\
  circlify (fun l => l) 20 zero_third false = Raise ValueError.
Proof. repeat split; vm_compute; reflexivity. Qed.

(** ** Exact arithmetic *)

Module Exact.

Lemma Rltb_false (a b : R) : (b <= a)%R -> Rltb a b = false.
Proof. intros H. unfold Rltb. destruct (Rlt_dec a b); [lra|reflexivity]. Qed.

Lemma Rltb_true (a b : R) : (a < b)%R -> Rltb a b = true.
Proof. intros H. unfold Rltb. destruct (Rlt_dec a b); [reflexivity|lra]. Qed.

(** The two seeds touch: their signed gap is exactly zero. *)
Lemma seed_gap_real (r0 r1 : R) :
  (0 <= r0)%R -> (0 <= r1)%R ->
  distance (mkCircle r0 0%R r0) (mkCircle (- r1)%R 0%R r1) = Ret 0%R.
Proof.
  intros H0 H1. unfold distance, py_sqrt. simpl.
  replace ((- r1 - r0) * (- r1 - r0) + (0 - 0) * (0 - 0))%R
    with ((r0 + r1) * (r0 + r1))%R by ring.
  rewrite Rltb_false by nra. simpl. f_equal.
  rewrite sqrt_square by lra. ring.
Qed.

(** A circle that passed the overlap test has a gap of at least zero. *)
Lemma clear_of_real (c pc : Circle R) :
  clear_of c pc -> exists d, distance pc c = Ret d /\ (0 <= d)%R.
Proof.
  intros (d & Hd & Hlt). exists d. split; [exact Hd|].
  simpl in Hlt. unfold Rltb in Hlt. destruct (Rlt_dec d 0); [discriminate|lra].
Qed.

Lemma center_dist_nonneg (c p : Circle R) (d : R) :
  center_dist c p = Ret d -> (0 <= d)%R.
Proof.
  unfold center_dist. intros H. bind_inv H. bind_inv H.
  apply py_sqrt_Ret in H. subst d. apply sqrt_pos.
Qed.

Lemma sum_dists_nonneg (c : Circle R) (l : list (Circle R)) :
  forall acc s, (0 <= acc)%R -> sum_dists acc c l = Ret s -> (0 <= s)%R.
Proof.
  induction l as [|p rest IH]; intros acc s Hacc H; simpl in H.
  - apply Ret_inj in H. now subst.
  - bind_inv H. apply center_dist_nonneg in Ea.
    eapply IH; [|exact H]. simpl. lra.
Qed.

Lemma survivor_sum_nonneg (placed : list (Circle R)) (sv : survivor) (s : R) :
  survivor_sum placed sv = Ret s -> (0 <= s)%R.
Proof.
  destruct sv as [[c c1] c2]. unfold survivor_sum, sum_center_distances.
  apply sum_dists_nonneg. simpl. lra.
Qed.

(** On sums that are not negative the two scores order alike. *)
Lemma same_order_real (s t : R) : (0 <= s)%R -> (0 <= t)%R -> same_order s t.
Proof.
  intros Hs Ht. unfold same_order. simpl.
  rewrite !Rltb_false by lra. split; [reflexivity|]. split; [reflexivity|].
  destruct (Rlt_dec t s) as [Hlt|Hge].
  - rewrite (@Rltb_true (- s)%R (- t)%R) by lra.
    apply Rltb_true. apply Ropp_lt_contravar. now apply sqrt_lt_1_alt.
  - rewrite (@Rltb_false (- s)%R (- t)%R) by lra.
    apply Rltb_false. apply Ropp_le_contravar. apply sqrt_le_1_alt. lra.
Qed.

(** In exact arithmetic the square root never changes the selection. *)
Lemma pick_lead_sqrt_same_as_sum_real (placed : list (Circle R))
    (cands : list survivor) :
  res_map snd (pick_lead get_hole_degree placed cands (None, None)) =
  res_map snd (pick_lead neg_sum_distances placed cands (None, None)).
Proof.
  apply pick_lead_related with (all := cands).
  - intros sv sv' s s' _ _ Hs Hs'.
    apply same_order_real; eapply survivor_sum_nonneg; eassumption.
  - apply incl_refl.
  - constructor.
Qed.

(** The whole of [no_overlap], read in exact arithmetic: every two placed
    circles have a signed gap of at least zero, and the gap of the two
    seeds is zero. *)
Lemma pack_no_overlap_real (score : scorer) (items : list (label * R))
    (placed : dict (Circle R)) :
  NoDup (map fst items) ->
  pack_loop score [] items = Ret placed ->
  forall i j pi pj, (i < j)%nat ->
    nth_error (values placed) i = Some pi ->
    nth_error (values placed) j = Some pj ->
    exists d, distance pi pj = Ret d /\ (0 <= d)%R /\ (j = 1%nat -> d = 0%R).
Proof.
  intros Hnd H i j pi pj Hij Hi Hj.
  destruct (@pack_loop_no_overlap R R_Num score _ _ Hnd H i j pi pj Hij Hi Hj) as [Hseed Hlater].
  assert (Hrad : forall k p, nth_error (values placed) k = Some p -> (0 <= r p)%R).
  { intros k p Hk. apply nth_error_In in Hk. apply in_map_iff in Hk.
    destruct Hk as ([l c] & <- & Hin).
    destruct (@pack_loop_radii R R_Num score _ _ Hnd H l c Hin) as (w & _ & Hr).
    simpl. rewrite Hr. apply sqrt_pos. }
  destruct (Nat.eq_dec j 1) as [->|Hne].
  - destruct (Hseed eq_refl) as (r0 & r1 & -> & ->).
    exists 0%R. split; [|split; [lra|reflexivity]].
    apply seed_gap_real.
    + apply (Hrad i _ Hi).
    + apply (Hrad 1%nat _ Hj).
  - destruct (clear_of_real (Hlater ltac:(lia))) as (d & Hd & Hpos).
    exists d. split; [exact Hd|]. split; [exact Hpos|]. intros ->. lia.
Qed.

End Exact.

(** ** binary64 at work *)

(** The seeds of [one_huge] touch: their centres are 2^60 + 1 apart and
    their radii are 2^60 and 1.  [distance] rounds 2^60 + 1 to 2^60 and
    computes -1, which is why [no_overlap] gives the seeds by their
    coordinates. *)
Example seed_gap_binary64 :
  distance (mkCircle 0x1p60%float 0%float 0x1p60%float)
           (mkCircle (-1)%float 0%float 1%float) = Ret (-1)%float.
Proof. vm_compute. reflexivity. Qed.

(** [enclose] is not total: on the two circles of [one_huge]
    [extendBasis] finds no basis. *)
Example circlify_one_huge_raises :
  circlify (fun l => l) 20 one_huge false = Raise RuntimeError.
Proof. vm_compute. reflexivity. Qed.

(** The scenario of the spec: three labels of weight 1. *)
Example pack_A1_0_three_ones :
  pack_A1_0 three_ones =
  Ret [("a"%string, mkCircle 1%float 0%float 1%float);
       ("b"%string, mkCircle (-1)%float 0%float 1%float);
       ("c"%string, mkCircle 0%float 0x1.bb67ae8584cb6p0%float 1%float)].
Proof. vm_compute. reflexivity. Qed.

(** * Further properties of the code *)

(** ** The overlap test and the basis of two *)

Section GeometryTotal.

Context {F : Type} {N : Num F} {L : NumLaws F}.
Local Open Scope num_scope.

(** X1: The overlap test of [pack_A1_0] raises nothing and says that some
    placed circle has a negative signed gap to the candidate. *)
Theorem overlaps_some_negative_gap (placed : list (Circle F)) (cand : Circle F) :
  overlaps placed cand =
  Ret (existsb (fun pc => signed_gap pc cand <? zero) placed).
Proof.
  induction placed as [|pc rest IH]; simpl; [reflexivity|].
  rewrite distance_signed_gap. simpl.
  destruct (signed_gap pc cand <? zero); simpl; [reflexivity|exact IH].
Qed.

(** X2: [encloseBasis2] divides by the distance of the two centres: it raises
    ZeroDivisionError when that distance is zero and returns the circle
    of the source's formula otherwise. *)
Theorem encloseBasis2_zero_division (a b : Circle F) :
  let l := center_distance a b in
  ((l =? zero) = true -> encloseBasis2 a b = Raise ZeroDivisionError) /\
  ((l =? zero) = false ->
   encloseBasis2 a b =
   Ret (mkCircle ((x a + x b + (x b - x a) / l * (r b - r a)) / two)
                 ((y a + y b + (y b - y a) / l * (r b - r a)) / two)
                 ((l + r a + r b) / two))).
Proof.
  destruct a as [x1 y1 r1], b as [x2 y2 r2].
  unfold encloseBasis2, center_distance. simpl.
  rewrite py_sqrt_sum_sq. simpl. unfold py_div.
  split; intros ->; reflexivity.
Qed.

End GeometryTotal.

Lemma overlaps_some_negative_gap_witness :
  overlaps [mkCircle 1%float 0%float 1%float; mkCircle (-1)%float 0%float 1%float]
           (mkCircle 0%float 1%float 1%float) = Ret true.
Proof.
  rewrite (overlaps_some_negative_gap (L := float_NumLaws)).
  vm_compute. reflexivity.
Defined.

Lemma encloseBasis2_zero_division_witness :
  encloseBasis2 (mkCircle 1%float 2%float 1%float)
                (mkCircle 1%float 2%float 3%float) = Raise ZeroDivisionError.
Proof.
  apply (proj1 (encloseBasis2_zero_division (L := float_NumLaws) _ _)).
  vm_compute. reflexivity.
Defined.

(** ** The basis of the enclosing circle *)

Section Basis.

Context {F : Type} {N : Num F}.
Local Open Scope num_scope.

Lemma combinations2_In {A} (l : list A) (a b : A) :
  In (a, b) (combinations2 l) -> In a l /\ In b l.
Proof.
  induction l as [|h t IH]; simpl; [intros []|].
  intros H. apply in_app_or in H. destruct H as [H|H].
  - apply in_map_iff in H. destruct H as (z & Hz & Hin).
    injection Hz as <- <-. auto.
  - destruct (IH H). auto.
Qed.

Lemma extendBasis_pair_found (B rest : list (Circle F)) (p : Circle F)
    (B' : list (Circle F)) :
  extendBasis_pair B rest p = Ret (Some B') ->
  exists bi e, In bi rest /\ B' = [bi; p] /\
               encloseBasis2 bi p = Ret e /\ enclosesWeakAll e B = true.
Proof.
  induction rest as [|bi rest IH]; simpl; intros H; [discriminate|].
  destruct (enclosesNot p bi).
  - bind_inv H. destruct (enclosesWeakAll a B) eqn:Ew.
    + apply Ret_inj in H. injection H as <-. exists bi, a. auto.
    + destruct (IH H) as (b & e & Hin & Hb). exists b, e. auto.
  - destruct (IH H) as (b & e & Hin & Hb). exists b, e. auto.
Qed.

Lemma extendBasis_triple_found (B : list (Circle F))
    (pairs : list (Circle F * Circle F)) (p : Circle F) (B' : list (Circle F)) :
  extendBasis_triple B pairs p = Ret (Some B') ->
  exists bi bj e, In (bi, bj) pairs /\ B' = [bi; bj; p] /\
                  encloseBasis3 bi bj p = Ret e /\ enclosesWeakAll e B = true.
Proof.
  induction pairs as [|[bi bj] rest IH]; simpl; intros H; [discriminate|].
  assert (Hrec : extendBasis_triple B rest p = Ret (Some B') ->
                 exists bi0 bj0 e, In (bi0, bj0) ((bi, bj) :: rest) /\
                   B' = [bi0; bj0; p] /\ encloseBasis3 bi0 bj0 p = Ret e /\
                   enclosesWeakAll e B = true).
  { intros H'. destruct (IH H') as (b & b' & e & Hin & Hb).
    exists b, b', e. split; [now right|exact Hb]. }
  bind_inv H. destruct (enclosesNot a p); [|auto].
  bind_inv H. destruct (enclosesNot a0 bj); [|auto].
  bind_inv H. destruct (enclosesNot a1 bi); [|auto].
  bind_inv H. destruct (enclosesWeakAll a2 B) eqn:Ew; [|auto].
  apply Ret_inj in H. injection H as <-.
  exists bi, bj, a2. split; [now left|auto].
Qed.

Lemma extendBasis_basis (B : list (Circle F)) (p : Circle F)
    (B' : list (Circle F)) :
  extendBasis B p = Ret B' ->
  basis_of B p B' /\
  exists e, encloseBasis B' = Ret e /\ enclosesWeakAll e B = true.
Proof.
  unfold extendBasis, basis_of. intros H.
  destruct (enclosesWeakAll p B) eqn:Ep.
  - apply Ret_inj in H. subst B'. split; [now left|]. now exists p.
  - bind_inv H. destruct a as [B2|].
    + apply Ret_inj in H. subst B2.
      apply extendBasis_pair_found in Ea as (bi & e & Hin & -> & He & Hw).
      split; [right; left; now exists bi|]. now exists e.
    + bind_inv H. destruct a as [B3|]; [|discriminate].
      apply Ret_inj in H. subst B3.
      apply extendBasis_triple_found in Ea0 as (bi & bj & e & Hin & -> & He & Hw).
      apply combinations2_In in Hin as [Hi Hj].
      split; [right; right; now exists bi, bj|]. now exists e.
Qed.

(** X3: What [extendBasis] returns is [p] alone, or [p] after one or two
    circles of [B]; the circle [encloseBasis] computes from it exists and
    weakly encloses every circle of [B]. *)
Theorem extendBasis_keeps_basis_enclosed (B : list (Circle F)) (p : Circle F)
    (B' : list (Circle F)) :
  extendBasis B p = Ret B' ->
  basis_of B p B' /\
  exists e, encloseBasis B' = Ret e /\ enclosesWeakAll e B = true.
Proof.
  intros H. destruct (extendBasis_basis _ _ H) as [Hb (e & He & Hw)].
  split; [exact Hb|]. exists e. split; assumption.
Qed.

Lemma basis_of_incl (circles B : list (Circle F)) (p : Circle F)
    (B' : list (Circle F)) :
  basis_of B p B' -> incl B circles -> In p circles ->
  incl B' circles /\ (1 <= List.length B' <= 3)%nat.
Proof.
  intros [->|[(bi & Hi & ->)|(bi & bj & Hi & Hj & ->)]] HB Hp; simpl;
    (split; [|lia]); intros z Hz; simpl in Hz; intuition (subst; auto).
Qed.

Lemma enclose_loop_solver_state (circles : list (Circle F)) (fuel : nat) :
  forall i B e out,
    solver_state circles B e ->
    enclose_loop fuel circles i B e = Ret out ->
    exists B', solver_state circles B' out.
Proof.
  induction fuel as [|fuel IH]; intros i B e out Hst H; simpl in H.
  - destruct (List.length circles <=? i)%nat; [|discriminate].
    apply Ret_inj in H. subst. now exists B.
  - destruct (List.length circles <=? i)%nat.
    { apply Ret_inj in H. subst. now exists B. }
    destruct (nth_error circles i) as [p|] eqn:Ep; [|discriminate].
    destruct (match e with Some e0 => enclosesWeak e0 p | None => false end).
    + eapply IH; eassumption.
    + bind_inv H. bind_inv H. eapply IH; [|exact H].
      right. exists a0. split; [reflexivity|]. split; [exact Ea0|].
      apply extendBasis_basis in Ea as [Hb _].
      apply (@basis_of_incl circles B p a Hb).
      * destruct Hst as [[-> _]|(e0 & _ & _ & Hincl & _)]; [intros z []|exact Hincl].
      * eapply nth_error_In. exact Ep.
Qed.

Section BasisShuffled.

Variable shuffle : list (Circle F) -> list (Circle F).
Hypothesis shuffle_perm : forall l, Permutation (shuffle l) l.

(** X4: [enclose] returns None for the empty mapping and for no other; the
    circle it returns otherwise is what [encloseBasis] computes from one
    to three circles of the mapping. *)
Theorem enclose_support_basis (fuel : nat) (packed_circles : dict (Circle F))
    (out : option (Circle F)) :
  enclose shuffle fuel packed_circles = Ret out ->
  (packed_circles = [] -> out = None) /\
  (packed_circles <> [] ->
   exists e B, out = Some e /\ encloseBasis B = Ret e /\
               incl B (values packed_circles) /\
               (1 <= List.length B <= 3)%nat).
Proof.
  intros H. unfold enclose in H. split.
  - intros ->. simpl in H.
    rewrite (Permutation_nil (Permutation_sym (shuffle_perm []))) in H.
    destruct fuel; simpl in H; apply Ret_inj in H; now subst.
  - intros Hne.
    assert (Hscan0 : scanned (shuffle (values packed_circles)) 0 None)
      by (intros k p Hk; lia).
    pose proof (@enclose_loop_scanned F N _ _ _ _ _ out Hscan0 H) as Hscan.
    assert (Hst0 : solver_state (shuffle (values packed_circles)) [] None)
      by (left; split; reflexivity).
    destruct (@enclose_loop_solver_state _ _ _ _ _ _ Hst0 H) as (B & [[-> ->]|Hst]).
    + exfalso.
      destruct packed_circles as [|[l0 c0] rest]; [now apply Hne|].
      assert (Hin : In c0 (shuffle (values ((l0, c0) :: rest)))).
      { apply (Permutation_in _ (Permutation_sym (shuffle_perm _))). now left. }
      destruct (In_nth_error _ _ Hin) as [k Hk].
      destruct (Hscan k c0 (nth_error_lt _ _ Hk) Hk) as (e0 & He0 & _).
      discriminate He0.
    + destruct Hst as (e0 & -> & He & Hincl & Hlen).
      exists e0, B. split; [reflexivity|]. split; [exact He|].
      split; [|exact Hlen].
      intros z Hz. apply (Permutation_in _ (shuffle_perm _)). now apply Hincl.
Qed.

End BasisShuffled.

End Basis.

(** Two unit circles side by side: the basis becomes the pair. *)
Lemma extendBasis_keeps_basis_enclosed_witness :
  let c1 := mkCircle 1%float 0%float 1%float in
  let p := mkCircle (-1)%float 0%float 1%float in
  basis_of [c1] p [c1; p] /\
  exists e, encloseBasis [c1; p] = Ret e /\ enclosesWeakAll e [c1] = true.
Proof.
  cbv zeta. apply extendBasis_keeps_basis_enclosed. vm_compute. reflexivity.
Defined.

(** The three unit circles: the enclosure comes from a basis of three. *)
Lemma enclose_support_basis_witness :
  exists packed e B,
    pack_A1_0 three_ones = Ret packed /\
    enclose (fun l => l) 20 packed = Ret (Some e) /\
    encloseBasis B = Ret e /\ incl B (values packed) /\
    (1 <= List.length B <= 3)%nat.
Proof.
  eexists. eexists.
  match goal with |- exists B, pack_A1_0 _ = Ret ?packed /\ enclose _ _ _ = Ret (Some ?e) /\ _ =>
    assert (Hp : pack_A1_0 three_ones = Ret packed) by (vm_compute; reflexivity);
    assert (He : enclose (fun l => l) 20 packed = Ret (Some e))
      by (vm_compute; reflexivity);
    destruct (proj2 (@enclose_support_basis float float_Num (fun l => l)
                       (fun l => Permutation_refl l) 20 packed (Some e) He))
      as (e' & B & He' & Hb & Hincl & Hlen); [discriminate|];
    injection He' as <-;
    exists B; repeat split; auto; apply Hlen
  end.
Defined.

(** ** The selection of the lead candidate *)

Section Selection.

Context {F : Type} {N : Num F}.
Local Open Scope num_scope.

Variable score : scorer (F := F).

Lemma update_lead_cases (placed : list (Circle F)) (st st' : lead)
    (cand c1 c2 : Circle F) :
  update_lead score placed st cand c1 c2 = Ret st' ->
  exists hd, score cand placed (Some c1) (Some c2) = Ret hd /\
    ((st' = (Some hd, Some cand) /\
      (fst st = None \/ exists m, fst st = Some m /\ (m <? hd) = true)) \/
     (st' = st /\ exists m, fst st = Some m /\ (m <? hd) = false)).
Proof.
  unfold update_lead. intros H. bind_inv H. exists a. split; [exact Ea|].
  destruct (fst st) as [m|] eqn:Em.
  - destruct (m <? a) eqn:Elt; apply Ret_inj in H; subst st'.
    + left. split; [reflexivity|]. right. now exists m.
    + right. split; [reflexivity|]. now exists m.
  - apply Ret_inj in H. subst st'. left. auto.
Qed.

Section Best.

Variable placed : list (Circle F).
Variable all : list (survivor (F := F)).

Hypothesis score_asym : forall sv sv' h h',
  In sv all -> In sv' all ->
  survivor_score score placed sv = Ret h ->
  survivor_score score placed sv' = Ret h' ->
  (h <? h') = true -> (h' <? h) = false.

Hypothesis score_neg_trans : forall sv sv' sv'' h h' h'',
  In sv all -> In sv' all -> In sv'' all ->
  survivor_score score placed sv = Ret h ->
  survivor_score score placed sv' = Ret h' ->
  survivor_score score placed sv'' = Ret h'' ->
  (h <? h') = false -> (h' <? h'') = false -> (h <? h'') = false.

Lemma score_irrefl (sv : survivor) (h : F) :
  In sv all -> survivor_score score placed sv = Ret h -> (h <? h) = false.
Proof.
  intros Hin Hs. destruct (h <? h) eqn:E; [|reflexivity].
  assert (E' : (h <? h) = false)
    by (eapply score_asym; [exact Hin|exact Hin|exact Hs|exact Hs|exact E]).
  congruence.
Qed.

Lemma pick_lead_best (svs : list survivor) :
  forall seen st st',
    incl (seen ++ svs) all ->
    best_of score placed seen st ->
    pick_lead score placed svs st = Ret st' ->
    best_of score placed (seen ++ svs) st'.
Proof.
  induction svs as [|[[cand c1] c2] rest IH]; intros seen st st' Hincl Hb H;
    simpl in H.
  - apply Ret_inj in H. subst. now rewrite app_nil_r.
  - bind_inv H. rename a into st1.
    assert (Hincl' : incl ((seen ++ [(cand, c1, c2)]) ++ rest) all)
      by (rewrite <- app_assoc; exact Hincl).
    cut (best_of score placed ((seen ++ [(cand, c1, c2)]) ++ rest) st');
      [now rewrite <- app_assoc|].
    apply (IH (seen ++ [(cand, c1, c2)]) st1 st'); [exact Hincl'| |exact H].
    assert (Hnew : In (cand, c1, c2) all).
    { apply Hincl. apply in_or_app. right. now left. }
    assert (Hseen : forall sv, In sv seen -> In sv all).
    { intros sv Hsv. apply Hincl. apply in_or_app. now left. }
    apply update_lead_cases in Ea as (hd & Hhd & Hcase).
    destruct Hcase as [[-> Hold]|[-> (m & Hm & Hle)]].
    + (* the new candidate takes the lead *)
      simpl. split.
      * exists (cand, c1, c2). split; [apply in_or_app; right; now left|].
        split; [reflexivity|exact Hhd].
      * intros sv h Hsv Hh. apply in_app_or in Hsv.
        destruct Hsv as [Hsv|[<-|[]]].
        -- destruct Hold as [Hnone|(m & Hm & Hlt)].
           ++ destruct st as [[m|] [c|]]; simpl in Hnone, Hb; try discriminate;
                try contradiction. subst seen. destruct Hsv.
           ++ destruct st as [[m0|] [c|]]; simpl in Hm, Hb; try discriminate;
                try contradiction. injection Hm as ->.
              destruct Hb as [(sv0 & Hin0 & _ & Hs0) Hmax].
              eapply score_neg_trans;
                [exact Hnew|exact (Hseen _ Hin0)|exact (Hseen _ Hsv)
                |exact Hhd|exact Hs0|exact Hh| |].
              ** eapply score_asym;
                   [exact (Hseen _ Hin0)|exact Hnew|exact Hs0|exact Hhd|exact Hlt].
              ** now apply (Hmax sv h).
        -- simpl in Hh. rewrite Hhd in Hh. apply Ret_inj in Hh. subst h.
           eapply score_irrefl; [exact Hnew|exact Hhd].
    + (* the lead stays *)
      destruct st as [[m0|] [c|]]; simpl in Hm, Hb; try discriminate;
        try contradiction. injection Hm as ->.
      destruct Hb as [(sv0 & Hin0 & Hc0 & Hs0) Hmax]. simpl. split.
      * exists sv0. split; [apply in_or_app; now left|]. auto.
      * intros sv h Hsv Hh. apply in_app_or in Hsv.
        destruct Hsv as [Hsv|[<-|[]]]; [now apply (Hmax sv h)|].
        simpl in Hh. rewrite Hhd in Hh. apply Ret_inj in Hh. now subst h.
Qed.

End Best.

Lemma pick_lead_member (placed : list (Circle F)) (svs : list survivor) :
  forall st st',
    (fst st = None <-> snd st = None) ->
    pick_lead score placed svs st = Ret st' ->
    (fst st' = None <-> snd st' = None) /\
    (snd st' = None -> svs = [] /\ snd st = None) /\
    (forall c, snd st' = Some c ->
       snd st = Some c \/ exists c1 c2, In (c, c1, c2) svs).
Proof.
  induction svs as [|[[cand c1] c2] rest IH]; intros st st' Hwf H; simpl in H.
  - apply Ret_inj in H. subst. auto.
  - bind_inv H. rename a into st1.
    apply update_lead_cases in Ea as (hd & _ & Hcase).
    assert (Hwf1 : fst st1 = None <-> snd st1 = None).
    { destruct Hcase as [[-> _]|[-> _]]; [|exact Hwf].
      simpl. split; discriminate. }
    assert (Hsome1 : snd st1 <> None).
    { destruct Hcase as [[-> _]|[-> (m & Hm & _)]]; [discriminate|].
      intros Hn. apply Hwf in Hn. congruence. }
    destruct (IH _ _ Hwf1 H) as (Hwf' & Hnone & Hsome).
    split; [exact Hwf'|]. split.
    + intros Hn. destruct (Hnone Hn) as [_ Ha]. now elim Hsome1.
    + intros c Hc. destruct (Hsome c Hc) as [Ha|(d1 & d2 & Hin)].
      * destruct Hcase as [[-> _]|[-> _]].
        -- simpl in Ha. injection Ha as ->. right. exists c1, c2. now left.
        -- now left.
      * right. exists d1, d2. now right.
Qed.

Lemma survivors_of_In (placed : list (Circle F)) (c1 c2 : Circle F)
    (k : option (Circle F)) (sv : list survivor) :
  survivors_of placed c1 c2 k = Ret sv ->
  (forall c, k = Some c ->
     exists b, overlaps placed c = Ret b /\
               (b = false -> In (c, c1, c2) sv)) /\
  (forall z, In z sv ->
     exists c, z = (c, c1, c2) /\ k = Some c /\ overlaps placed c = Ret false).
Proof.
  destruct k as [c|]; simpl; intros H.
  - bind_inv H. apply Ret_inj in H. subst sv. split.
    + intros c' Hc. injection Hc as <-. exists a. split; [exact Ea|].
      intros ->. now left.
    + intros z Hz. destruct a; [destruct Hz|].
      destruct Hz as [<-|[]]. exists c. auto.
  - apply Ret_inj in H. subst sv. split; [discriminate|intros z []].
Qed.

Lemma survivors_In (placed : list (Circle F)) (radius : F)
    (pairs : list (Circle F * Circle F)) :
  forall svs,
    survivors placed radius pairs = Ret svs ->
    (forall c1 c2 k1 k2 c,
        In (c1, c2) pairs ->
        get_placement_candidates radius c1 c2 = Ret (k1, k2) ->
        k1 = Some c \/ k2 = Some c ->
        exists b, overlaps placed c = Ret b /\
                  (b = false -> In (c, c1, c2) svs)) /\
    (forall c c1 c2, In (c, c1, c2) svs ->
        In (c1, c2) pairs /\
        exists k1 k2, get_placement_candidates radius c1 c2 = Ret (k1, k2) /\
                      (k1 = Some c \/ k2 = Some c) /\
                      overlaps placed c = Ret false).
Proof.
  induction pairs as [|[p1 p2] rest IH]; intros svs H; simpl in H.
  - apply Ret_inj in H. subst. split; [intros ? ? ? ? ? []|intros ? ? ? []].
  - bind_inv H. destruct a as [q1 q2]. bind_inv H. bind_inv H. bind_inv H.
    apply Ret_inj in H. subst svs.
    destruct (survivors_of_In _ _ _ _ Ea0) as [Hfw1 Hbw1].
    destruct (survivors_of_In _ _ _ _ Ea1) as [Hfw2 Hbw2].
    destruct (IH _ Ea2) as [Hfw Hbw]. split.
    + intros c1 c2 k1 k2 c [Hp|Hp] Hg Hk.
      * injection Hp as <- <-. rewrite Ea in Hg. apply Ret_inj in Hg.
        injection Hg as <- <-. destruct Hk as [Hk|Hk].
        -- destruct (Hfw1 c Hk) as (b & Hb & Hin). exists b. split; [exact Hb|].
           intros Hf. apply in_or_app. left. auto.
        -- destruct (Hfw2 c Hk) as (b & Hb & Hin). exists b. split; [exact Hb|].
           intros Hf. apply in_or_app. right. apply in_or_app. left. auto.
      * destruct (Hfw c1 c2 k1 k2 c Hp Hg Hk) as (b & Hb & Hin).
        exists b. split; [exact Hb|]. intros Hf.
        apply in_or_app. right. apply in_or_app. right. auto.
    + intros c c1 c2 Hin. apply in_app_or in Hin. destruct Hin as [Hin|Hin].
      * destruct (Hbw1 _ Hin) as (c' & Hz & Hk & Ho). injection Hz as -> -> ->.
        split; [now left|]. exists q1, q2. auto.
      * apply in_app_or in Hin. destruct Hin as [Hin|Hin].
        -- destruct (Hbw2 _ Hin) as (c' & Hz & Hk & Ho). injection Hz as -> -> ->.
           split; [now left|]. exists q1, q2. auto.
        -- destruct (Hbw _ _ _ Hin) as [Hp Hrest]. split; [now right|exact Hrest].
Qed.

Lemma select_loop_survivors (placed : list (Circle F)) (radius : F)
    (pairs : list (Circle F * Circle F)) :
  forall st st',
    select_loop score placed radius pairs st = Ret st' ->
    exists svs, survivors placed radius pairs = Ret svs.
Proof.
  induction pairs as [|[c1 c2] rest IH]; intros st st' H; simpl in H.
  - now exists [].
  - bind_inv H. destruct a as [k1 k2]. bind_inv H. bind_inv H.
    destruct (IH _ _ H) as [tl Htl].
    assert (Hs : forall k s0 s1, consider score placed c1 c2 s0 k = Ret s1 ->
                   exists sv, survivors_of placed c1 c2 k = Ret sv).
    { intros [c|] s0 s1 Hc; simpl in *; [|now exists []].
      bind_inv Hc. rewrite Ea2. simpl. eauto. }
    destruct (Hs _ _ _ Ea0) as [s1 Hs1]. destruct (Hs _ _ _ Ea1) as [s2 Hs2].
    exists (s1 ++ s2 ++ tl). simpl. rewrite Ea. simpl.
    rewrite Hs1. simpl. rewrite Hs2. simpl. rewrite Htl. reflexivity.
Qed.

Lemma select_candidate_cases (placed : dict (Circle F)) (radius : F)
    (out : option (Circle F)) :
  select_candidate score placed radius = Ret out ->
  exists svs,
    survivors (values placed) radius (combinations2 (values placed)) = Ret svs /\
    (out = None -> svs = []) /\
    (forall c, out = Some c -> exists c1 c2, In (c, c1, c2) svs).
Proof.
  unfold select_candidate. intros H. bind_inv H. apply Ret_inj in H. subst out.
  destruct (select_loop_survivors _ _ _ _ Ea) as [svs Hsvs]. exists svs.
  split; [exact Hsvs|].
  rewrite (@select_loop_pick_lead F N score _ _ _ svs (None, None) Hsvs) in Ea.
  destruct (@pick_lead_member (values placed) svs (None, None) a
              (conj (fun _ => eq_refl) (fun _ => eq_refl)) Ea)
    as (_ & Hnone & Hsome).
  split.
  - intros Hn. now apply Hnone.
  - intros c Hc. destruct (Hsome c Hc) as [Hd|Hd]; [discriminate Hd|exact Hd].
Qed.

(** X5: [select_candidate] finds no candidate exactly when the overlap test
    rejects every placement candidate of every pair of placed circles;
    the candidate it returns otherwise is one that passed the test. *)
Theorem select_candidate_none_iff_all_overlap (placed : dict (Circle F))
    (radius : F) (out : option (Circle F)) :
  select_candidate score placed radius = Ret out ->
  (out = None <->
   forall c b, candidate_with_overlap (values placed) radius c b -> b = true) /\
  (forall c, out = Some c ->
     candidate_with_overlap (values placed) radius c false).
Proof.
  intros H. destruct (select_candidate_cases _ _ H) as (svs & Hsvs & Hnone & Hsome).
  destruct (survivors_In _ _ _ Hsvs) as [Hfw Hbw].
  assert (Hpicked : forall c, out = Some c ->
            candidate_with_overlap (values placed) radius c false).
  { intros c Hc. destruct (Hsome c Hc) as (c1 & c2 & Hin).
    destruct (Hbw _ _ _ Hin) as (Hp & k1 & k2 & Hg & Hk & Ho).
    exists c1, c2, k1, k2. auto. }
  split; [|exact Hpicked]. split.
  - intros Hn c b (c1 & c2 & k1 & k2 & Hp & Hg & Hk & Ho).
    destruct (Hfw c1 c2 k1 k2 c Hp Hg Hk) as (b' & Hb' & Hin).
    rewrite Ho in Hb'. apply Ret_inj in Hb'. subst b'.
    destruct b; [reflexivity|]. rewrite (Hnone Hn) in Hin. now elim (Hin eq_refl).
  - intros Hall. destruct out as [c|]; [|reflexivity].
    pose proof (Hall c false (Hpicked c eq_refl)). discriminate.
Qed.

Lemma Forall2_score_In (placed : list (Circle F)) (svs : list survivor)
    (hs : list F) :
  Forall2 (fun sv h => survivor_score score placed sv = Ret h) svs hs ->
  forall sv h, In sv svs -> survivor_score score placed sv = Ret h -> In h hs.
Proof.
  induction 1 as [|sv0 h0 svs hs H0 _ IH]; intros sv h Hin Hs; [destruct Hin|].
  destruct Hin as [<-|Hin].
  - rewrite H0 in Hs. apply Ret_inj in Hs. now left.
  - right. now apply (IH sv h).
Qed.

(** X6: When [<] orders the scores, the candidate [select_candidate] returns
    is a survivor whose score no survivor's score exceeds. *)
Theorem select_candidate_has_best_score (placed : dict (Circle F)) (radius : F)
    (svs : list survivor) (c : Circle F) :
  survivors (values placed) radius (combinations2 (values placed)) = Ret svs ->
  scores_ordered score (values placed) svs ->
  select_candidate score placed radius = Ret (Some c) ->
  exists sv m,
    In sv svs /\ fst (fst sv) = c /\
    survivor_score score (values placed) sv = Ret m /\
    forall sv' h, In sv' svs ->
      survivor_score score (values placed) sv' = Ret h -> (m <? h) = false.
Proof.
  intros Hsvs (hs & Hhs & Hasym & Hneg) H.
  unfold select_candidate in H. bind_inv H. apply Ret_inj in H.
  rewrite (@select_loop_pick_lead F N score _ _ _ svs (None, None) Hsvs) in Ea.
  pose proof (@Forall2_score_In _ _ _ Hhs) as Hin.
  assert (Hb : best_of score (values placed) ([] ++ svs) a).
  { apply (@pick_lead_best (values placed) svs) with (st := (None, None)).
    - intros sv sv' h h' H1 H2 H3 H4. apply Hasym; eauto.
    - intros sv sv' sv'' h h' h'' H1 H2 H3 H4 H5 H6. apply Hneg; eauto.
    - apply incl_refl.
    - reflexivity.
    - exact Ea. }
  simpl in Hb. destruct a as [[m|] [c'|]]; simpl in H; try discriminate;
    try contradiction.
  injection H as ->. destruct Hb as [(sv & Hsv & Hc & Hm) Hmax].
  exists sv, m. auto.
Qed.

End Selection.

Lemma select_candidate_none_iff_all_overlap_witness :
  exists c,
    select_candidate get_hole_degree three_ones_packed 1%float = Ret (Some c) /\
    candidate_with_overlap (values three_ones_packed) 1%float c false.
Proof.
  eexists. split; [vm_compute; reflexivity|].
  eapply (@select_candidate_none_iff_all_overlap float float_Num get_hole_degree
            three_ones_packed 1%float); vm_compute; reflexivity.
Defined.

Lemma select_candidate_has_best_score_witness :
  exists svs c sv m,
    survivors (values three_ones_packed) 1%float
      (combinations2 (values three_ones_packed)) = Ret svs /\
    select_candidate get_hole_degree three_ones_packed 1%float = Ret (Some c) /\
    In sv svs /\ fst (fst sv) = c /\
    survivor_score get_hole_degree (values three_ones_packed) sv = Ret m /\
    forall sv' h, In sv' svs ->
      survivor_score get_hole_degree (values three_ones_packed) sv' = Ret h ->
      fltb m h = false.
Proof.
  eexists. eexists.
  match goal with |- exists sv m, survivors ?vs ?rad ?pairs = Ret ?svs /\
                       select_candidate _ _ _ = Ret (Some ?c) /\ _ =>
    assert (Hs : survivors vs rad pairs = Ret svs) by (vm_compute; reflexivity);
    assert (Hc : select_candidate get_hole_degree three_ones_packed 1%float
                 = Ret (Some c)) by (vm_compute; reflexivity);
    assert (Ho : scores_ordered get_hole_degree vs svs)
  end.
  { eexists. split.
    - repeat (constructor; [vm_compute; reflexivity|]). constructor.
    - apply float_weights_ordered. repeat constructor. }
  destruct (@select_candidate_has_best_score float float_Num get_hole_degree
              three_ones_packed 1%float _ _ Hs Ho Hc) as (sv & m & H1 & H2 & H3 & H4).
  exists sv, m. repeat (split; [assumption|]). exact H4.
Defined.

(** ** What the packer leaves in the mapping *)

Section PackerMore.

Context {F : Type} {N : Num F}.
Local Open Scope num_scope.

Variable score : scorer (F := F).

Lemma combinations2_nth {A} (l : list A) (a b : A) :
  In (a, b) (combinations2 l) ->
  exists i j, (i < j)%nat /\ nth_error l i = Some a /\ nth_error l j = Some b.
Proof.
  induction l as [|h t IH]; simpl; [intros []|].
  intros H. apply in_app_or in H. destruct H as [H|H].
  - apply in_map_iff in H. destruct H as (z & Hz & Hin). injection Hz as <- <-.
    destruct (In_nth_error _ _ Hin) as [j Hj].
    exists 0%nat, (S j). split; [lia|]. auto.
  - destruct (IH H) as (i & j & Hij & Hi & Hj).
    exists (S i), (S j). split; [lia|]. auto.
Qed.

Lemma pack_loop_keys (items : list (label * F)) :
  forall placed out,
    (forall l, In l (keys placed) -> ~ In l (map fst items)) ->
    NoDup (map fst items) ->
    pack_loop score placed items = Ret out ->
    exists k, (k <= List.length items)%nat /\
              keys out = keys placed ++ firstn k (map fst items).
Proof.
  induction items as [|[l w] rest IH]; intros placed out Hdisj Hnd H; simpl in H.
  - apply Ret_inj in H. subst. exists 0%nat. simpl. now rewrite app_nil_r.
  - bind_inv H.
    assert (Hfresh : ~ In l (keys placed)).
    { intros Hl. apply (Hdisj l Hl). now left. }
    inversion Hnd as [|? ? Hl Hnd']; subst.
    assert (Hstep : forall c out', pack_loop score (dict_set placed l c) rest = Ret out' ->
              exists k, (k <= List.length ((l, w) :: rest))%nat /\
                keys out' = keys placed ++ firstn k (map fst ((l, w) :: rest))).
    { intros c out' Hc. rewrite dict_set_fresh in Hc by exact Hfresh.
      apply IH in Hc; [|intros l' Hl'|exact Hnd'].
      - destruct Hc as (k & Hk & Hkeys). exists (S k). split; [simpl; lia|].
        rewrite Hkeys, keys_app, <- app_assoc. reflexivity.
      - rewrite keys_app in Hl'. apply in_app_or in Hl'.
        destruct Hl' as [Hl'|[<-|[]]]; [|exact Hl].
        intros Hr. apply (Hdisj l' Hl'). now right. }
    destruct (List.length placed <=? 1)%nat.
    + eapply Hstep. exact H.
    + bind_inv H. destruct a0 as [c|].
      * eapply Hstep. exact H.
      * apply Ret_inj in H. subst. exists 0%nat. split; [lia|].
        simpl. now rewrite app_nil_r.
Qed.

(** X7: The labels [pack_A1_0] has placed are the first labels of the
    processing order, in that order: what is left out is a tail of it. *)
Theorem pack_A1_0_keys_prefix (data : dict F) (placed : dict (Circle F)) :
  NoDup (keys data) ->
  pack_with score data = Ret placed ->
  keys placed = firstn (List.length placed) (map fst (sorted_desc data)).
Proof.
  intros Hnd H. unfold pack_with in H.
  apply pack_loop_keys in H; [|intros l []|now apply sorted_desc_NoDup].
  destruct H as (k & Hk & Hkeys). simpl in Hkeys.
  assert (Hlen : List.length placed = k).
  { rewrite <- (length_map fst placed). fold (keys placed). rewrite Hkeys.
    rewrite length_firstn, length_map. lia. }
  now rewrite Hlen.
Qed.

Lemma pack_loop_later_candidates (items : list (label * F))
    (placed : dict (Circle F)) :
  NoDup (map fst items) ->
  pack_loop score [] items = Ret placed ->
  forall j pj, (2 <= j)%nat -> nth_error (values placed) j = Some pj ->
    candidate_of_earlier placed j pj.
Proof.
  intros Hnd H.
  set (P := fun d : dict (Circle F) =>
              forall j pj, (2 <= j)%nat -> nth_error (values d) j = Some pj ->
                candidate_of_earlier d j pj).
  assert (Hext : forall d e j pj, candidate_of_earlier d j pj ->
                   (j <= List.length d)%nat ->
                   candidate_of_earlier (d ++ e) j pj).
  { intros d e j pj (i1 & i2 & p1 & p2 & k1 & k2 & Hlt & H1 & H2 & Hg & Hk) Hj.
    exists i1, i2, p1, p2, k1, k2. split; [exact Hlt|].
    rewrite values_app, !nth_error_app1
      by (unfold values; rewrite length_map; lia). auto. }
  assert (HP : P placed); [|exact HP].
  apply (@pack_loop_invariant F N score P items) with (items := items) (placed := []);
    try assumption.
  - intros d l w radius Hd _ _ Hlen _ j pj Hj Hn.
    pose proof (nth_error_lt _ _ Hn) as Hb.
    rewrite values_app, length_app in Hb. unfold values in Hb.
    rewrite length_map in Hb. simpl in Hb. lia.
  - intros d l w radius c Hd _ _ Hlen Hsel _ j pj Hj Hn.
    pose proof (nth_error_lt _ _ Hn) as Hb.
    rewrite values_app, length_app in Hb. unfold values in Hb.
    rewrite length_map in Hb. simpl in Hb.
    assert (Hlv : List.length (values d) = List.length d) by apply length_map.
    destruct (Nat.eq_dec j (List.length d)) as [->|Hne].
    + rewrite values_app, nth_error_app2, Hlv, Nat.sub_diag in Hn by lia.
      simpl in Hn. injection Hn as <-.
      destruct (select_candidate_good _ _ _ Hsel) as [Hr _].
      destruct (select_candidate_cases _ _ _ Hsel) as (svs & Hsvs & _ & Hsome).
      destruct (Hsome c eq_refl) as (c1 & c2 & Hin).
      destruct (survivors_In _ _ _ Hsvs) as [_ Hbw].
      destruct (Hbw _ _ _ Hin) as (Hp & k1 & k2 & Hg & Hk & _).
      destruct (combinations2_nth _ _ _ Hp) as (i1 & i2 & Hlt & H1 & H2).
      pose proof (nth_error_lt _ _ H2) as Hi2. rewrite Hlv in Hi2.
      exists i1, i2, c1, c2, k1, k2. split; [lia|].
      rewrite values_app, !nth_error_app1 by lia. rewrite Hr. auto.
    + apply Hext; [|lia]. apply Hd; [exact Hj|].
      rewrite values_app, nth_error_app1 in Hn by lia. exact Hn.
  - apply incl_refl.
  - intros l [].
  - intros j pj _ Hn. destruct j; discriminate Hn.
Qed.

(** X8: Every circle [pack_A1_0] places after the two seeds is a placement
    candidate, of its own radius, of two circles placed before it. *)
Theorem pack_A1_0_later_circles_are_candidates (data : dict F)
    (placed : dict (Circle F)) :
  NoDup (keys data) ->
  pack_with score data = Ret placed ->
  forall j pj, (2 <= j)%nat -> nth_error (values placed) j = Some pj ->
    candidate_of_earlier placed j pj.
Proof.
  intros Hnd H. eapply pack_loop_later_candidates; [|exact H].
  now apply sorted_desc_NoDup.
Qed.

End PackerMore.

Lemma pack_A1_0_keys_prefix_witness :
  exists placed,
    pack_with get_hole_degree one_huge = Ret placed /\
    keys placed = ["a"%string; "b"%string] /\
    keys placed = firstn (List.length placed) (map fst (sorted_desc one_huge)).
Proof.
  eexists. split; [vm_compute; reflexivity|]. split; [reflexivity|].
  apply (@pack_A1_0_keys_prefix float float_Num get_hole_degree one_huge).
  - repeat constructor; simpl; intuition discriminate.
  - vm_compute. reflexivity.
Defined.

Lemma pack_A1_0_later_circles_are_candidates_witness :
  candidate_of_earlier three_ones_packed 2
    (mkCircle 0%float 0x1.bb67ae8584cb6p0%float 1%float).
Proof.
  apply (@pack_A1_0_later_circles_are_candidates float float_Num get_hole_degree
           three_ones three_ones_packed three_ones_NoDup).
  - vm_compute. reflexivity.
  - lia.
  - reflexivity.
Defined.

(** ** Scaling and the entry point, further *)

Section ScaleMore.

Context {F : Type} {N : Num F}.
Local Open Scope num_scope.

(** X14: [scale] raises exactly when there is a circle to scale and the
    radius scaled to is zero, and then a ZeroDivisionError; the empty
    mapping gives the empty mapping. *)
Theorem scale_raises_iff (circles : dict (Circle F)) (ex ey er : F) (e : exn) :
  (scale circles ex ey er = Raise e <->
   circles <> [] /\ (er =? zero) = true /\ e = ZeroDivisionError) /\
  scale [] ex ey er = Ret [].
Proof.
  split; [|reflexivity].
  unfold scale. split.
  - intros H. destruct (er =? zero) eqn:Er.
    + destruct circles as [|[l [x_c y_c r_c]] rest]; [discriminate H|].
      simpl in H. unfold py_div in H. rewrite Er in H. simpl in H.
      injection H as <-. repeat split. discriminate.
    + destruct (@scale_returns F N (mkCircle ex ey er) circles Er []) as [out Ho].
      simpl in Ho. rewrite Ho in H. discriminate H.
  - intros (Hne & Er & ->).
    destruct circles as [|[l [x_c y_c r_c]] rest]; [contradiction|].
    simpl. unfold py_div. rewrite Er. reflexivity.
Qed.

Section Single.

Variable shuffle : list (Circle F) -> list (Circle F).
Hypothesis shuffle_perm : forall l, Permutation (shuffle l) l.

Lemma circlify_single (fuel : nat) (l : label) (w : F) (with_unit : bool) :
  let c := mkCircle (fsqrt w) zero (fsqrt w) in
  (w <? zero) = false ->
  enclosesWeak c c = true ->
  (fsqrt w =? zero) = false ->
  (2 <= fuel)%nat ->
  circlify shuffle fuel [(l, w)] with_unit =
  Ret (if with_unit
       then dict_set [(l, normalized c c)] EmptyString unit_circle
       else [(l, normalized c c)]).
Proof.
  intros c Hw Hc Hr Hf.
  unfold circlify, pack_A1_0, pack_with. simpl sorted_desc. simpl pack_loop.
  unfold py_sqrt. rewrite Hw. cbn [bind]. fold c.
  unfold enclose. cbn [values map snd].
  assert (Hs : shuffle [c] = [c]).
  { apply Permutation_length_1_inv, Permutation_sym, shuffle_perm. }
  rewrite Hs.
  destruct fuel as [|[|fuel]]; try lia.
  cbn [enclose_loop List.length Nat.leb nth_error].
  unfold extendBasis. cbn [enclosesWeakAll forallb bind encloseBasis].
  cbn [enclose_loop List.length Nat.leb nth_error]. rewrite Hc.
  cbn [Nat.add].
  assert (He : forall f, enclose_loop f [c] 1 [c] (Some c) = Ret (Some c))
    by (intros []; reflexivity).
  rewrite He. cbn [bind]. unfold c at 1. unfold scale. simpl scale_loop.
  unfold py_div. rewrite Hr. cbn [bind].
  unfold normalized, unit_circle. simpl. destruct with_unit; reflexivity.
Qed.

(** X15: A single label of weight [w] that is not negative, whose seed
    circle passes [enclosesWeak] against itself and has a radius that is
    not zero: [circlify] returns that circle normalized by itself, with
    the unit circle under the empty key when [with_unit] is set. *)
Theorem circlify_single_label (fuel : nat) (l : label) (w : F)
    (with_unit : bool) :
  let c := mkCircle (fsqrt w) zero (fsqrt w) in
  (w <? zero) = false ->
  enclosesWeak c c = true ->
  (fsqrt w =? zero) = false ->
  (2 <= fuel)%nat ->
  circlify shuffle fuel [(l, w)] with_unit =
  Ret (if with_unit
       then dict_set [(l, normalized c c)] EmptyString unit_circle
       else [(l, normalized c c)]).
Proof. apply circlify_single. Qed.

End Single.

End ScaleMore.

Lemma circlify_single_label_witness :
  let c := mkCircle (fsqrt 4%float) 0%float (fsqrt 4%float) in
  circlify (fun l => l) 2 [("a"%string, 4%float)] false
  = Ret [("a"%string, normalized c c)] /\
  normalized c c = mkCircle 0%float 0%float 1%float.
Proof.
  split; [|vm_compute; reflexivity].
  apply (@circlify_single_label float float_Num (fun l => l)
           (fun l => Permutation_refl l) 2 "a"%string 4%float false).
  - vm_compute. reflexivity.
  - vm_compute. reflexivity.
  - vm_compute. reflexivity.
  - lia.
Defined.

(** ** The exceptions of the packer *)

Section Raises.

Context {F : Type} {N : Num F}.
Local Open Scope num_scope.

Lemma raises_only_bind {A B} (P : exn -> Prop) (m : res A) (k : A -> res B) :
  raises_only P m -> (forall a, raises_only P (k a)) -> raises_only P (bind m k).
Proof. destruct m; simpl; auto. Qed.

Lemma raises_only_spec {A} (P : exn -> Prop) (m : res A) :
  raises_only P m -> (forall e, m = Raise e -> P e) /\ m <> OutOfFuel.
Proof.
  destruct m as [a|e| ]; simpl; intros H; split.
  - intros e' He. discriminate He.
  - discriminate.
  - intros e' He. inversion He. now subst.
  - discriminate.
  - contradiction.
  - contradiction.
Qed.

Lemma raises_only_weaken {A} (P Q : exn -> Prop) (m : res A) :
  (forall e, P e -> Q e) -> raises_only P m -> raises_only Q m.
Proof. destruct m; simpl; auto. Qed.

Lemma py_sqrt_raises (a : F) : raises_only sqrt_or_div_error (py_sqrt a).
Proof. unfold py_sqrt. destruct (a <? zero); simpl; [now left|exact I]. Qed.

Lemma py_div_raises (a b : F) : raises_only sqrt_or_div_error (py_div a b).
Proof. unfold py_div. destruct (b =? zero); simpl; [now right|exact I]. Qed.

Lemma py_sqrt_raises_arith (a : F) : raises_only arith_error (py_sqrt a).
Proof. unfold py_sqrt. destruct (a <? zero); simpl; [now left|exact I]. Qed.

Lemma py_pow2_raises (a : F) : raises_only arith_error (py_pow2 a).
Proof.
  unfold py_pow2. destruct (finite a && negb (finite (fsquare a))); simpl;
    [right; now right|exact I].
Qed.

Ltac raises_step :=
  first [ exact I
        | apply py_sqrt_raises | apply py_div_raises
        | apply py_sqrt_raises_arith | apply py_pow2_raises
        | apply raises_only_bind; [|intros ?]
        | match goal with
          | |- raises_only _ (if ?b then _ else _) => destruct b
          end ].

Lemma get_intersection_raises (c1 c2 : Circle F) :
  raises_only sqrt_or_div_error (get_intersection c1 c2).
Proof.
  destruct c1 as [x1 y1 r1], c2 as [x2 y2 r2]. unfold get_intersection.
  repeat raises_step.
Qed.

Lemma get_placement_candidates_raises (radius : F) (c1 c2 : Circle F) :
  raises_only sqrt_or_div_error (get_placement_candidates radius c1 c2).
Proof.
  unfold get_placement_candidates. apply raises_only_bind.
  - apply get_intersection_raises.
  - intros [ [ [i1x i1y] | ] [ [i2x i2y] | ] ]; exact I.
Qed.

Lemma distance_raises (c1 c2 : Circle F) :
  raises_only sqrt_or_div_error (distance c1 c2).
Proof.
  destruct c1 as [x1 y1 r1], c2 as [x2 y2 r2]. unfold distance.
  repeat raises_step.
Qed.

Lemma overlaps_raises (placed : list (Circle F)) (cand : Circle F) :
  raises_only sqrt_or_div_error (overlaps placed cand).
Proof.
  induction placed as [|pc rest IH]; simpl; [exact I|].
  apply raises_only_bind; [apply distance_raises|].
  intros d. destruct (d <? zero); [exact I|exact IH].
Qed.

Lemma hole_degree_loop_raises (cand : Circle F) (placed : list (Circle F))
    (pc1 pc2 : option (Circle F)) :
  forall lsq, raises_only arith_error (hole_degree_loop cand placed pc1 pc2 lsq).
Proof.
  induction placed as [|pc rest IH]; intros lsq; simpl; [exact I|].
  destruct (match pc1 with Some c => circle_eqb c pc | None => false end);
    [apply IH|].
  destruct (match pc2 with Some c => circle_eqb c pc | None => false end);
    [apply IH|].
  repeat raises_step. apply IH.
Qed.

Lemma get_hole_degree_raises (cand : Circle F) (placed : list (Circle F))
    (pc1 pc2 : option (Circle F)) :
  raises_only arith_error (get_hole_degree cand placed pc1 pc2).
Proof.
  unfold get_hole_degree. apply raises_only_bind; [apply hole_degree_loop_raises|].
  intros lsq. repeat raises_step.
Qed.

Lemma sqrt_or_div_arith (e : exn) : sqrt_or_div_error e -> arith_error e.
Proof. intros [ -> | -> ]; [now left|right; now left]. Qed.

Lemma consider_raises (placed : list (Circle F)) (c1 c2 : Circle F) (st : lead)
    (cand : option (Circle F)) :
  raises_only arith_error (consider get_hole_degree placed c1 c2 st cand).
Proof.
  destruct cand as [cand|]; simpl; [|exact I].
  apply raises_only_bind.
  - eapply raises_only_weaken; [exact sqrt_or_div_arith|apply overlaps_raises].
  - intros [ | ]; [exact I|]. unfold update_lead.
    apply raises_only_bind; [apply get_hole_degree_raises|].
    intros hd. destruct (fst st) as [mhd|]; [destruct (mhd <? hd)|]; exact I.
Qed.

Lemma select_loop_raises (placed : list (Circle F)) (radius : F)
    (pairs : list (Circle F * Circle F)) :
  forall st, raises_only arith_error
               (select_loop get_hole_degree placed radius pairs st).
Proof.
  induction pairs as [|[c1 c2] rest IH]; intros st; simpl; [exact I|].
  apply raises_only_bind.
  - eapply raises_only_weaken; [exact sqrt_or_div_arith|].
    apply get_placement_candidates_raises.
  - intros [k1 k2]. apply raises_only_bind; [apply consider_raises|].
    intros st1. apply raises_only_bind; [apply consider_raises|].
    intros st2. apply IH.
Qed.

Lemma pack_loop_raises (items : list (label * F)) :
  forall placed, raises_only arith_error (pack_loop get_hole_degree placed items).
Proof.
  induction items as [|[l w] rest IH]; intros placed; simpl; [exact I|].
  apply raises_only_bind; [apply py_sqrt_raises_arith|].
  intros radius. destruct (List.length placed <=? 1)%nat; [apply IH|].
  apply raises_only_bind.
  - unfold select_candidate. apply raises_only_bind; [apply select_loop_raises|].
    intros st. exact I.
  - intros [c | ]; [apply IH|exact I].
Qed.

(** X9: [get_intersection] and [get_placement_candidates] return or raise the
    ValueError of [math.sqrt] or the ZeroDivisionError of a division;
    a second point or candidate never comes without a first. *)
Theorem get_placement_candidates_outcomes (radius : F) (c1 c2 : Circle F) :
  (forall e, get_intersection c1 c2 = Raise e -> sqrt_or_div_error e) /\
  get_intersection c1 c2 <> OutOfFuel /\
  (forall e, get_placement_candidates radius c1 c2 = Raise e ->
     sqrt_or_div_error e) /\
  get_placement_candidates radius c1 c2 <> OutOfFuel /\
  (forall o1 o2, get_intersection c1 c2 = Ret (o1, o2) -> o1 = None -> o2 = None) /\
  (forall k1 k2, get_placement_candidates radius c1 c2 = Ret (k1, k2) ->
     k1 = None -> k2 = None).
Proof.
  destruct (@raises_only_spec _ _ _ (get_intersection_raises c1 c2)) as [Hi1 Hi2].
  destruct (@raises_only_spec _ _ _ (get_placement_candidates_raises radius c1 c2))
    as [Hc1 Hc2].
  repeat (split; [assumption|]).
  assert (Hi : forall a b o1 o2, get_intersection a b = Ret (o1, o2) ->
                 o1 = None -> o2 = None).
  { intros [x1 y1 r1] [x2 y2 r2] o1 o2 H ->. unfold get_intersection in H.
    bind_inv H.
    destruct (_ <? _) in H; [now inversion H|].
    destruct (_ <? _) in H; [now inversion H|].
    destruct (_ && _) in H; [now inversion H|].
    apply intersection_solution_not_none in H. now elim H. }
  split; [apply Hi|].
  intros k1 k2 H ->. unfold get_placement_candidates in H. bind_inv H.
  destruct a as [ [ [i1x i1y] | ] o2].
  - destruct o2 as [ [i2x i2y] | ]; inversion H.
  - now inversion H.
Qed.

(** X11: [pack_A1_0] returns a mapping or raises one of the exceptions of the
    arithmetic: the ValueError of [math.sqrt], the ZeroDivisionError of
    a division, the OverflowError of [** 2.0]. *)
Theorem pack_A1_0_raises_only_arithmetic (data : dict F) :
  (forall e, pack_A1_0 data = Raise e -> arith_error e) /\
  pack_A1_0 data <> OutOfFuel.
Proof. apply raises_only_spec, pack_loop_raises. Qed.

End Raises.

(** ** The tolerance at large radii *)

(** With binary64 numbers and a large radius the tolerance is absorbed:
    a circle that touches the large one from the inside is enclosed for
    [enclosesNot] and not for [enclosesWeak]. *)
Example enclosesNot_false_not_weak_float :
  let a := mkCircle 0%float 0%float 0x1p40%float in
  let b := mkCircle 0x1p39%float 0%float 0x1p39%float in
  enclosesNot a b = false /\ enclosesWeak a b = false.
Proof. split; vm_compute; reflexivity. Qed.
